(** * Elementary cellular automata on a ring: rule tables and generation steps

    A shallow embedding of [cellular_automata.py]: the helper [binary], the
    class [Rule] (constructor, [_get_mapping], [get_next_cell]) and the class
    [CellularAutomata] (constructor, [size] setter, the three initialisers,
    [next_generation], [run], [__str__]).

    Conventions of the embedding.
    - Python integers are [Z].  The two arguments that are used as exponents
      ([digits] of [binary] and [n] of [Rule]) are [nat]: with a negative
      exponent [2**k] is a Python float, which is outside this model.
    - A Python [str] is a [list ascii]; a tuple or list of integers is a
      [list Z]; the dictionary [Rule.mapping] is a [gmap (list Z) Z].
    - A call either returns or raises: [result A].  The [assert] statements of
      the source raise [AssertionError]; a dictionary miss raises [KeyError];
      a list index out of range raises [IndexError].
    - A method that assigns to [self] before it may raise returns the object
      as it is left together with the [result]. *)

From stdpp Require Import gmap list strings pretty.
From Stdlib Require Import ZArith Ascii Lia.

Local Open Scope Z_scope.

(** ** Exceptions and results *)

Inductive exn : Set :=
  | AssertionError
  | KeyError
  | IndexError
  | ValueError.

Inductive result (A : Type) : Type :=
  | Ok (a : A)
  | Raise (e : exn).
Arguments Ok {A} a.
Arguments Raise {A} e.

#[global] Instance result_ret : MRet result := @Ok.
#[global] Instance result_bind : MBind result :=
  λ A B f m, match m with Ok a => f a | Raise e => Raise e end.

(** [tuple(f(x) for x in xs)]: left to right, the first exception wins. *)
Fixpoint tuple_for {A B} (f : A → result B) (xs : list A) : result (list B) :=
  match xs with
  | [] => Ok []
  | x :: xs' => y ← f x; ys ← tuple_for f xs'; Ok (y :: ys)
  end.

(** [for x in xs: acc = body(acc, x)]: a loop over a list that may raise. *)
Fixpoint for_in {A S} (body : S → A → result S) (xs : list A) (acc : S) : result S :=
  match xs with
  | [] => Ok acc
  | x :: xs' => acc' ← body acc x; for_in body xs' acc'
  end.

(** [range(lo, hi)] for integers. *)
Definition range (lo hi : Z) : list Z := seqZ lo (hi - lo).

(** ** Python strings used by [binary] *)

Abbreviation str := (list ascii).

Definition lit (s : string) : str := String.list_ascii_of_string s.

(** Binary digits of a positive number, most significant first. *)
Fixpoint bin_pos (p : positive) : str :=
  match p with
  | xH => ["1"%char]
  | xO q => bin_pos q ++ ["0"%char]
  | xI q => bin_pos q ++ ["1"%char]
  end.

(** [bin(number)]: ["0b0"], ["0b101"], ["-0b101"]. *)
Definition bin (number : Z) : str :=
  match number with
  | Z0 => lit "0b0"
  | Zpos p => lit "0b" ++ bin_pos p
  | Zneg p => lit "-0b" ++ bin_pos p
  end.

Fixpoint startswith (s prefix : str) {struct prefix} : bool :=
  match prefix, s with
  | [], _ => true
  | _ :: _, [] => false
  | c :: prefix', d :: s' => Ascii.eqb c d && startswith s' prefix'
  end.

(** [s.removeprefix(prefix)] *)
Definition removeprefix (s prefix : str) : str :=
  if startswith s prefix then drop (length prefix) s else s.

(** [s.zfill(width)]: zeros are put on the left up to [width] characters, after
    a leading sign if there is one; a string already that long is returned as
    it is. *)
Definition zfill (s : str) (width : nat) : str :=
  let fill := replicate (width - length s)%nat "0"%char in
  match s with
  | c :: s' =>
      if Ascii.eqb c "+"%char || Ascii.eqb c "-"%char
      then c :: fill ++ s'
      else fill ++ s
  | [] => fill
  end.

(** [int(c)] for a one-character string. *)
Definition int (c : ascii) : result Z :=
  let k := Z.of_nat (nat_of_ascii c) in
  if (48 <=? k) && (k <=? 57) then Ok (k - 48) else Raise ValueError.

(** ** [binary] *)

Definition binary (number : Z) (digits : nat) : result (list Z) :=
  if (0 <=? number) && (number <? 2 ^ Z.of_nat digits) then
    let binary_str := zfill (removeprefix (bin number) (lit "0b")) digits in
    tuple_for int binary_str
  else Raise AssertionError.

(** ** The random source

    [random.randint(a, b)] returns an integer of [[a, b]]; [entropy] is the
    raw value the generator draws for the call. *)
Definition randint (a b : Z) (entropy : Z) : Z := a + entropy `mod` (b - a + 1).

(** ** Python lists: [l[k]] and [l[k] = v] with Python's negative indices *)

Definition list_index (len : nat) (k : Z) : result nat :=
  if (0 <=? k) && (k <? Z.of_nat len) then Ok (Z.to_nat k)
  else if (- Z.of_nat len <=? k) && (k <? 0) then Ok (Z.to_nat (k + Z.of_nat len))
  else Raise IndexError.

Definition getitem (l : list Z) (k : Z) : result Z :=
  i ← list_index (length l) k;
  match l !! i with
  | Some v => Ok v
  | None => Raise IndexError
  end.

Definition setitem (l : list Z) (k : Z) (v : Z) : result (list Z) :=
  i ← list_index (length l) k;
  Ok (<[i := v]> l).

(** ** class Rule *)

Module Rule.

Record t : Type := {
  number : Z;
  n : nat;
  mapping : gmap (list Z) Z
}.

(** [_get_mapping] reads [self.number] and [self.n], which [__init__] has
    just assigned. *)
Definition _get_mapping (number : Z) (n : nat) : result (gmap (list Z) Z) :=
  let indices := range 0 (2 ^ Z.of_nat n) in
  values ← binary number (2 ^ n);
  for_in
    (λ (mapping : gmap (list Z) Z) '(i, value),
       key ← binary i n;
       Ok (<[key := value]> mapping))
    (zip indices values) ∅.

(** [Rule(number, n)].  [entropy] is only used when no number is given (the
    line printed in that case is not modelled). *)
Definition __init__ (entropy : Z) (number : option Z) (n : nat) : result t :=
  let number :=
    match number with
    | None => randint 0 (2 ^ (2 ^ Z.of_nat n) - 1) entropy
    | Some k => k
    end in
  if negb (number <? 2 ^ (2 ^ Z.of_nat n)) then Raise AssertionError
  else if negb (n mod 2 =? 1)%nat then Raise AssertionError
  else
    mapping ← _get_mapping number n;
    Ok {| number := number; n := n; mapping := mapping |}.

Definition get_next_cell (self : t) (interval_cells : list Z) : result Z :=
  if negb (length interval_cells =? n self)%nat then Raise AssertionError
  else
    match mapping self !! interval_cells with
    | Some value => Ok value
    | None => Raise KeyError
    end.

End Rule.

(** ** class CellularAutomata *)

Module CellularAutomata.

Record t : Type := {
  _size : Z;
  cells : list Z
}.

Definition SYMBOLS : gmap Z str := <[0 := lit " "]> (<[1 := lit "#"]> ∅).

Definition size (self : t) : Z := _size self.

Definition with_cells (self : t) (cs : list Z) : t :=
  {| _size := _size self; cells := cs |}.

(** [[0] * k] is empty for [k <= 0]. *)
Definition init_zeroes (self : t) : t :=
  with_cells self (replicate (Z.to_nat (_size self)) 0).

(** [CellularAutomata(size)]; [cells] is [None] until [init_zeroes] runs. *)
Definition __init__ (size : Z) : t :=
  init_zeroes {| _size := size; cells := [] |}.

(** [self.size = value] *)
Definition set_size (self : t) (value : Z) : t :=
  init_zeroes {| _size := value; cells := cells self |}.

(** The argument [pos] of [init_single]: [None], an [int], or anything else
    (for which neither branch runs). *)
Inductive pos_arg : Set :=
  | PosNone
  | PosInt (pos : Z)
  | PosOther.

Definition init_single (self : t) (pos : pos_arg) : t * result unit :=
  let self := with_cells self (replicate (Z.to_nat (size self)) 0) in
  match pos with
  | PosNone =>
      match setitem (cells self) (size self `div` 2) 1 with
      | Ok cs => (with_cells self cs, Ok tt)
      | Raise e => (self, Raise e)
      end
  | PosInt pos =>
      if negb ((0 <=? pos) && (pos <? size self)) then (self, Raise AssertionError)
      else
        match setitem (cells self) pos 1 with
        | Ok cs => (with_cells self cs, Ok tt)
        | Raise e => (self, Raise e)
        end
  | PosOther => (self, Ok tt)
  end.

(** [entropy k] is the raw draw of the [k]-th call of [random.randint]. *)
Definition randomize (entropy : nat → Z) (self : t) : t :=
  with_cells self
    ((λ k, randint 0 1 (entropy k)) <$> seq 0 (Z.to_nat (size self))).

(** The neighbourhood of position [i]: [rel_i % self.size] is only evaluated
    inside the loop over [range(self.size)], hence with a positive size. *)
Definition interval_cells (self : t) (margin i : Z) : result (list Z) :=
  let interval_indices := range (i - margin) (i + margin + 1) in
  tuple_for (λ rel_i, getitem (cells self) (rel_i `mod` size self)) interval_indices.

Definition next_cells (self : t) (rule : Rule.t) : result (list Z) :=
  let margin := Z.of_nat (Rule.n rule) `div` 2 in
  for_in
    (λ next_cells i,
       interval_cells ← interval_cells self margin i;
       next_cell ← Rule.get_next_cell rule interval_cells;
       Ok (next_cells ++ [next_cell]))
    (range 0 (size self)) [].

(** [self.cells] is assigned once, after the loop. *)
Definition next_generation (self : t) (rule : Rule.t) : t * result unit :=
  match next_cells self rule with
  | Ok cs => (with_cells self cs, Ok tt)
  | Raise e => (self, Raise e)
  end.

Definition __str__ (self : t) : result str :=
  symbols ← tuple_for
    (λ cell, match SYMBOLS !! cell with Some s => Ok s | None => Raise KeyError end)
    (cells self);
  Ok (concat symbols).

(** What is known of a call of [run] after a bounded number of loop
    iterations: it has returned, it has raised, or it is still looping.
    [out] is the list of printed lines, [iteration] the loop counter. *)
Inductive run_state : Type :=
  | Returned (self : t) (out : list str) (iteration : Z)
  | Raised (self : t) (out : list str) (e : exn)
  | Looping (self : t) (out : list str) (iteration : Z).

Fixpoint run_loop (fuel : nat) (rule : Rule.t) (iteration_limit : Z)
    (self : t) (out : list str) (iteration : Z) : run_state :=
  match fuel with
  | O => Looping self out iteration
  | S fuel' =>
      match __str__ self with
      | Raise e => Raised self out e
      | Ok line =>
          let out := out ++ [line] in
          match next_generation self rule with
          | (self, Raise e) => Raised self out e
          | (self, Ok _) =>
              let iteration := iteration + 1 in
              if (iteration >? iteration_limit) && (iteration_limit >? 0)
              then Returned self out iteration
              else run_loop fuel' rule iteration_limit self out iteration
          end
      end
  end.

Definition run (fuel : nat) (self : t) (rule : Rule.t) (iteration_limit : option Z)
    : run_state :=
  let iteration_limit :=
    match iteration_limit with
    | None => size self `div` 2
    | Some limit => limit
    end in
  run_loop fuel rule iteration_limit self [] 0.

End CellularAutomata.

(** * Notions used to state the properties *)

Module CA := CellularAutomata.

Definition is_bit (x : Z) : Prop := x = 0 ∨ x = 1.

(** The number a digit sequence denotes, most significant digit first. *)
Fixpoint bits_value (l : list Z) : Z :=
  match l with
  | [] => 0
  | b :: l' => b * 2 ^ Z.of_nat (length l') + bits_value l'
  end.

(** A [Rule] object is one that the constructor returned. *)
Definition constructed (r : Rule.t) : Prop :=
  ∃ entropy number n, Rule.__init__ entropy number n = Ok r.

(** The class invariant: [size] cells, each of them 0 or 1. *)
Definition cells_ok (self : CA.t) : Prop :=
  Z.of_nat (length (CA.cells self)) = CA.size self ∧ Forall is_bit (CA.cells self).

(** The automaton after one more generation, and after [k] of them. *)
Definition advance (rule : Rule.t) (self : CA.t) : CA.t :=
  (CA.next_generation self rule).1.

Fixpoint generations (rule : Rule.t) (k : nat) (self : CA.t) : CA.t :=
  match k with
  | O => self
  | S k' => generations rule k' (advance rule self)
  end.

(** The line printed for an automaton, and the lines printed along [k]
    generations. *)
Definition render (self : CA.t) : str :=
  match CA.__str__ self with
  | Ok line => line
  | Raise _ => []
  end.

Fixpoint emitted (rule : Rule.t) (k : nat) (self : CA.t) : list str :=
  match k with
  | O => []
  | S k' => render self :: emitted rule k' (advance rule self)
  end.

(** [Rule(90)], and a ring of five cells seeded in the middle. *)
Definition rule_90 : Rule.t :=
  match Rule.__init__ 0 (Some 90) 3 with
  | Ok r => r
  | Raise _ => {| Rule.number := 90; Rule.n := 3; Rule.mapping := ∅ |}
  end.

Definition ring_5 : CA.t := (CA.init_single (CA.__init__ 5) CA.PosNone).1.

(** [Rule(60)], the rule of the program at the end of the source file. *)
Definition rule_60 : Rule.t :=
  match Rule.__init__ 0 (Some 60) 3 with
  | Ok r => r
  | Raise _ => {| Rule.number := 60; Rule.n := 3; Rule.mapping := ∅ |}
  end.

(** [CellularAutomata(size)] after [init_single(pos=0)]. *)
Definition seeded_at_0 (size : Z) : CA.t :=
  (CA.init_single (CA.__init__ size) (CA.PosInt 0)).1.

(** The character printed for a binary cell. *)
Definition glyph (cell : Z) : ascii := if decide (cell = 0) then " "%char else "#"%char.

(** Pascal's triangle: [pascal g i] is the binomial coefficient of [g] over [i]. *)
Fixpoint pascal (g i : nat) : nat :=
  match g, i with
  | _, O => 1
  | O, S _ => 0
  | S g', S i' => pascal g' i' + pascal g' i
  end.

(** ** The program under [if __name__ == "__main__"]

    [Rule(60)], a ring of 255 cells seeded at position 0, and [run] with
    [iteration_limit=127]. *)
Definition main (fuel : nat) : result CA.run_state :=
  rule ← Rule.__init__ 0 (Some 60) 3;
  let cellular_automata := CA.__init__ 255 in
  let '(cellular_automata, seeded) := CA.init_single cellular_automata (CA.PosInt 0) in
  _ ← seeded;
  Ok (CA.run fuel cellular_automata rule (Some 127)).

(** ** [Rule.__str__]

    A Python dictionary keeps its keys in insertion order, and [items()]
    follows that order; the [gmap] of [Rule.mapping] does not record it.
    [dict_set] is the assignment [d[key] = value] on a dictionary kept as
    the list of its items, and [mapping_items] is the loop of [_get_mapping]
    run on that representation: what [self.mapping.items()] yields. *)
Fixpoint dict_set (d : list (list Z * Z)) (key : list Z) (value : Z)
    : list (list Z * Z) :=
  match d with
  | [] => [(key, value)]
  | (k, v) :: d' =>
      if decide (k = key) then (k, value) :: d' else (k, v) :: dict_set d' key value
  end.

Definition mapping_items (number : Z) (n : nat) : result (list (list Z * Z)) :=
  let indices := range 0 (2 ^ Z.of_nat n) in
  values ← binary number (2 ^ n);
  for_in
    (λ (mapping : list (list Z * Z)) '(i, value),
       key ← binary i n;
       Ok (dict_set mapping key value))
    (zip indices values) [].

(** [str(k)] for an integer, and [sep.join(parts)]. *)
Definition str_of_int (k : Z) : str := lit (pretty k).

Fixpoint join (sep : str) (parts : list str) : str :=
  match parts with
  | [] => []
  | [part] => part
  | part :: parts' => part ++ sep ++ join sep parts'
  end.

Definition newline : ascii := "010"%char.

(** [items] stands for [self.mapping.items()]. *)
Definition Rule_str (self : Rule.t) (items : list (list Z * Z)) : str :=
  let number_and_n :=
    lit "Rule #" ++ str_of_int (Rule.number self) ++ lit " (n="
      ++ str_of_int (Z.of_nat (Rule.n self)) ++ lit ")" in
  let mappings :=
    join [newline]
      ((λ '(key, value),
          lit "    " ++ join [] (str_of_int <$> key) ++ lit ": " ++ str_of_int value)
       <$> items) in
  number_and_n ++ [newline] ++ mappings.

(** The digit character of a binary value. *)
Definition digit (b : Z) : ascii := if decide (b = 0) then "0"%char else "1"%char.

(** * Properties *)

(** ** The result monad *)

Lemma tuple_for_app {A B} (f : A → result B) (xs ys : list A) (xs' ys' : list B) :
  tuple_for f xs = Ok xs' → tuple_for f ys = Ok ys' →
  tuple_for f (xs ++ ys) = Ok (xs' ++ ys').
Proof.
  revert xs'. induction xs as [|x xs IH]; intros xs' Hx Hy; simpl in *.
  - by inversion Hx.
  - destruct (f x) as [y|e]; simpl in *; [|done].
    destruct (tuple_for f xs) as [zs|e]; simpl in *; [|done].
    inversion Hx; subst. by rewrite (IH zs eq_refl Hy).
Qed.

Lemma tuple_for_fmap {A B} (f : A → result B) (g : A → B) (xs : list A) :
  (∀ x, x ∈ xs → f x = Ok (g x)) → tuple_for f xs = Ok (g <$> xs).
Proof.
  induction xs as [|x xs IH]; intros H; simpl; [done|].
  rewrite H by left. simpl. rewrite IH; [done|].
  intros y Hy. apply H. by right.
Qed.

(** ** Binary digit sequences *)

Lemma bits_value_bound (l : list Z) :
  Forall is_bit l → 0 ≤ bits_value l < 2 ^ Z.of_nat (length l).
Proof.
  induction 1 as [|b l Hb _ IH]; simpl bits_value; simpl length; [lia|].
  rewrite Nat2Z.inj_succ, Z.pow_succ_r by lia.
  destruct Hb; subst; lia.
Qed.

Lemma bits_value_app (l1 l2 : list Z) :
  bits_value (l1 ++ l2) = bits_value l1 * 2 ^ Z.of_nat (length l2) + bits_value l2.
Proof.
  induction l1 as [|b l1 IH]; simpl; [lia|].
  rewrite IH, length_app, Nat2Z.inj_add, Z.pow_add_r by lia. ring.
Qed.

Lemma bits_value_zeros (k : nat) (l : list Z) :
  bits_value (replicate k 0 ++ l) = bits_value l.
Proof. induction k as [|k IH]; simpl; [done|]. rewrite IH. lia. Qed.

(** Two digit sequences of the same length denoting the same number are equal. *)
Lemma bits_value_inj (l1 l2 : list Z) :
  Forall is_bit l1 → Forall is_bit l2 → length l1 = length l2 →
  bits_value l1 = bits_value l2 → l1 = l2.
Proof.
  intros H1. revert l2.
  induction H1 as [|b1 l1 Hb1 H1 IH]; intros [|b2 l2] H2 Hlen Hv;
    simpl in Hlen; try done.
  apply Forall_cons in H2 as [Hb2 H2].
  injection Hlen as Hlen. simpl in Hv. rewrite Hlen in Hv.
  pose proof (bits_value_bound l1 H1) as B1.
  pose proof (bits_value_bound l2 H2) as B2.
  rewrite Hlen in B1.
  assert (b1 = b2) as -> by (destruct Hb1, Hb2; subst; lia).
  f_equal. apply IH; [done..|lia].
Qed.

(** The digit at index [k] is the bit of weight [2^(length - 1 - k)]. *)
Lemma bits_value_testbit (l : list Z) (k : nat) :
  Forall is_bit l → (k < length l)%nat →
  l !! k = Some (Z.b2z (Z.testbit (bits_value l) (Z.of_nat (length l) - 1 - Z.of_nat k))).
Proof.
  intros H. revert k. induction H as [|b l Hb H IH]; intros k Hk; simpl in Hk; [lia|].
  pose proof (bits_value_bound l H) as B.
  simpl bits_value. simpl length. rewrite Nat2Z.inj_succ.
  set (w := Z.of_nat (length l)) in *.
  destruct k as [|k]; simpl.
  - f_equal.
    match goal with |- context [Z.testbit _ ?i] => replace i with w by lia end.
    rewrite Z.testbit_eqb by lia.
    rewrite Z.add_comm, Z.div_add, Z.div_small by lia.
    destruct Hb; by subst.
  - rewrite IH by lia. do 2 f_equal.
    match goal with
    | |- context [Z.testbit _ ?i] => replace i with (w - 1 - Z.of_nat k) by lia
    end.
    rewrite <- (Z.mod_pow2_bits_low (b * 2 ^ w + bits_value l) w) by lia.
    f_equal; [|lia]. rewrite Z.add_comm, Z.mod_add by lia. by rewrite Z.mod_small.
Qed.

(** ** [bin], [removeprefix], [zfill] on natural numbers *)

Lemma bin_pos_head (p : positive) : ∃ s, bin_pos p = "1"%char :: s.
Proof.
  induction p as [p [s IH]|p [s IH]|]; simpl; [rewrite IH..|]; eauto.
Qed.

Lemma bin_pos_digits (p : positive) :
  ∃ l, tuple_for int (bin_pos p) = Ok l ∧ Forall is_bit l ∧
       bits_value l = Z.pos p ∧ 2 ^ Z.of_nat (length l) ≤ 2 * Z.pos p.
Proof.
  induction p as [p (l & Ht & Hb & Hv & Hl)|p (l & Ht & Hb & Hv & Hl)|]; simpl.
  - exists (l ++ [1]). split; [by apply tuple_for_app|].
    split; [apply Forall_app; split; [done|repeat constructor; by right]|].
    rewrite bits_value_app, length_app, Nat2Z.inj_add, Z.pow_add_r, Hv by lia.
    simpl. lia.
  - exists (l ++ [0]). split; [by apply tuple_for_app|].
    split; [apply Forall_app; split; [done|repeat constructor; by left]|].
    rewrite bits_value_app, length_app, Nat2Z.inj_add, Z.pow_add_r, Hv by lia.
    simpl. lia.
  - exists [1]. split; [done|]. split; [repeat constructor; by right|]. simpl. lia.
Qed.

Lemma removeprefix_bin_pos (p : positive) :
  removeprefix (bin (Z.pos p)) (lit "0b") = bin_pos p.
Proof. reflexivity. Qed.

Lemma zfill_digits (s : str) (l : list Z) (c : ascii) (s' : str) (width : nat) :
  s = c :: s' → (c = "0"%char ∨ c = "1"%char) → tuple_for int s = Ok l →
  tuple_for int (zfill s width) = Ok (replicate (width - length l) 0 ++ l).
Proof.
  intros -> Hc Ht. unfold zfill.
  replace (Ascii.eqb c "+" || Ascii.eqb c "-") with false by (by destruct Hc; subst).
  assert (length l = length (c :: s')) as ->.
  { clear Hc. revert l Ht. generalize (c :: s'). intros s.
    induction s as [|d s IH]; intros l Ht; simpl in *; [by inversion Ht|].
    destruct (int d); simpl in *; [|done].
    destruct (tuple_for int s) as [l'|]; simpl in *; [|done].
    inversion Ht; subst. simpl. f_equal. by apply IH. }
  apply tuple_for_app; [|done].
  generalize (width - length (c :: s'))%nat. intros k.
  induction k as [|k IH]; simpl; [done|]. by rewrite IH.
Qed.

(** What [binary] returns on its domain: the digits of [number], padded with
    zeros on the left to [digits] places.  [bits number] is the shortest
    digit sequence of [number], ["0"] for zero. *)
Lemma binary_digits (number : Z) (digits : nat) :
  0 ≤ number < 2 ^ Z.of_nat digits →
  ∃ l, binary number digits = Ok (replicate (digits - length l) 0 ++ l) ∧
       Forall is_bit l ∧ bits_value l = number ∧
       (1 ≤ length l)%nat ∧ (length l ≤ Nat.max 1 digits)%nat.
Proof.
  intros Hr. unfold binary.
  replace ((0 <=? number) && (number <? 2 ^ Z.of_nat digits)) with true
    by (symmetry; apply andb_true_iff; lia).
  destruct number as [|p|p]; [| |lia].
  - exists [0]. split; [|split; [repeat constructor; by left|simpl; lia]].
    by apply (zfill_digits _ [0] "0"%char []); [|left|].
  - destruct (bin_pos_digits p) as (l & Ht & Hb & Hv & Hl).
    destruct (bin_pos_head p) as [s Hs].
    exists l. split; [|split; [done|split; [done|]]].
    + rewrite removeprefix_bin_pos. eapply zfill_digits; [done|by right|done].
    + split.
      * destruct l; [simpl in Hv; lia|simpl; lia].
      * assert (Z.of_nat (length l) ≤ Z.of_nat digits); [|lia].
        apply Z.lt_succ_r. rewrite <- Z.add_1_r.
        apply (Z.pow_lt_mono_r_iff 2); [lia|lia|].
        rewrite Z.pow_add_r by lia. simpl (2 ^ 1). lia.
Qed.

Lemma binary_raise (number : Z) (digits : nat) :
  number < 0 ∨ 2 ^ Z.of_nat digits ≤ number →
  binary number digits = Raise AssertionError.
Proof.
  intros H. unfold binary.
  replace ((0 <=? number) && (number <? 2 ^ Z.of_nat digits)) with false; [done|].
  symmetry. apply andb_false_iff. lia.
Qed.

Lemma binary_inv (number : Z) (digits : nat) (l : list Z) :
  binary number digits = Ok l → 0 ≤ number < 2 ^ Z.of_nat digits.
Proof.
  intros H.
  destruct (decide (0 ≤ number < 2 ^ Z.of_nat digits)) as [|Hn]; [done|].
  rewrite binary_raise in H by lia. done.
Qed.

Lemma binary_some (number : Z) (digits : nat) :
  0 ≤ number < 2 ^ Z.of_nat digits →
  ∃ l, binary number digits = Ok l ∧ Forall is_bit l ∧
       bits_value l = number ∧ length l = Nat.max 1 digits.
Proof.
  intros Hr. destruct (binary_digits number digits Hr) as (l & -> & Hb & Hv & H1 & Hd).
  eexists. split; [done|]. split; [|split].
  - apply Forall_app. split; [|done]. apply Forall_replicate. by left.
  - by rewrite bits_value_zeros.
  - rewrite length_app, length_replicate. lia.
Qed.

(** ** The table built by [_get_mapping] *)

(** The loop of [_get_mapping], over any list of (index, value) pairs whose
    indices are distinct and in range: each index's key ends up holding its
    value, and nothing else is written. *)
Lemma get_mapping_loop (n : nat) (ivs : list (Z * Z)) (m0 : gmap (list Z) Z) :
  (∀ i v, (i, v) ∈ ivs → 0 ≤ i < 2 ^ Z.of_nat n) → NoDup ivs.*1 →
  ∃ m, for_in (λ (mapping : gmap (list Z) Z) '(i, value),
                 key ← binary i n; Ok (<[key := value]> mapping)) ivs m0 = Ok m ∧
       (∀ i v key, (i, v) ∈ ivs → binary i n = Ok key → m !! key = Some v) ∧
       (∀ key, (∀ i v, (i, v) ∈ ivs → binary i n ≠ Ok key) → m !! key = m0 !! key) ∧
       (∀ key v, m !! key = Some v →
          m0 !! key = Some v ∨ ∃ i, (i, v) ∈ ivs ∧ binary i n = Ok key).
Proof.
  revert m0. induction ivs as [|[i0 v0] ivs IH]; intros m0 Hr Hnd.
  - exists m0. split; [done|]. split; [|by auto].
    intros ??? H. by apply elem_of_nil in H.
  - apply NoDup_cons in Hnd as [Hi0 Hnd].
    destruct (binary_some i0 n) as (k0 & Hk0 & _ & Hv0 & _).
    { apply (Hr i0 v0). left. }
    destruct (IH (<[k0 := v0]> m0)) as (m & Hm & Hin & Hout & Hdom); [|done|].
    { intros i v H. apply (Hr i v). by right. }
    exists m. split; [simpl; by rewrite Hk0|]. split; [|split].
    + intros i v key [Heq|H]%elem_of_cons Hkey; [|by eapply Hin].
      injection Heq as -> ->. rewrite Hk0 in Hkey. injection Hkey as <-.
      rewrite Hout; [apply lookup_insert_eq|].
      intros i v H Hk. apply Hi0.
      destruct (binary_some i n) as (k & Hk' & _ & Hv & _); [by eapply binary_inv|].
      rewrite Hk in Hk'. injection Hk' as <-. rewrite <- Hv0, Hv.
      by apply (list_elem_of_fmap_2 fst _ (i, v)).
    + intros key H. rewrite Hout.
      * apply lookup_insert_ne. intros ->. apply (H i0 v0); [left|done].
      * intros i v Hiv. apply (H i v). by right.
    + intros key v [Hl|(i & Hi & Hk)]%Hdom.
      * destruct (decide (k0 = key)) as [<-|Hne].
        -- rewrite lookup_insert_eq in Hl. injection Hl as <-.
           right. exists i0. split; [left|done].
        -- rewrite lookup_insert_ne in Hl by done. by left.
      * right. exists i. split; [by right|done].
Qed.

Lemma get_mapping_spec (number : Z) (n : nat) :
  0 ≤ number < 2 ^ (2 ^ Z.of_nat n) →
  ∃ values m,
    binary number (2 ^ n) = Ok values ∧ length values = (2 ^ n)%nat ∧
    Forall is_bit values ∧ bits_value values = number ∧
    Rule._get_mapping number n = Ok m ∧
    (∀ i key, 0 ≤ i < 2 ^ Z.of_nat n → binary i n = Ok key →
       m !! key = values !! Z.to_nat i) ∧
    (∀ key v, m !! key = Some v →
       ∃ i, 0 ≤ i < 2 ^ Z.of_nat n ∧ binary i n = Ok key ∧
            values !! Z.to_nat i = Some v).
Proof.
  intros Hr.
  assert (Z.of_nat (2 ^ n) = 2 ^ Z.of_nat n) as Hpow by apply Nat2Z.inj_pow.
  assert (1 ≤ 2 ^ n)%nat as Hpos.
  { assert (0 < 2 ^ Z.of_nat n) by (apply Z.pow_pos_nonneg; lia). lia. }
  destruct (binary_some number (2 ^ n)) as (values & Hvs & Hb & Hv & Hlen).
  { by rewrite Hpow. }
  rewrite Nat.max_r in Hlen by done.
  assert (∀ i v, (i, v) ∈ zip (range 0 (2 ^ Z.of_nat n)) values ↔
                 0 ≤ i ∧ values !! Z.to_nat i = Some v) as Hzip.
  { intros i v. unfold range. rewrite elem_of_lookup_zip_with. split.
    - intros (k & x & y & [= -> ->] & [-> Hk]%lookup_seqZ & Hy).
      split; [lia|]. by replace (Z.to_nat (0 + Z.of_nat k)) with k by lia.
    - intros [Hi Hl]. exists (Z.to_nat i), i, v. split; [done|]. split; [|done].
      apply lookup_lt_Some in Hl. apply lookup_seqZ. lia. }
  destruct (get_mapping_loop n (zip (range 0 (2 ^ Z.of_nat n)) values) ∅)
    as (m & Hm & Hin & _ & Hdom).
  { intros i v [Hi Hl]%Hzip. apply lookup_lt_Some in Hl. lia. }
  { rewrite fst_zip; [apply NoDup_seqZ|]. unfold range. rewrite length_seqZ. lia. }
  exists values, m. repeat split; try done.
  - unfold Rule._get_mapping. rewrite Hvs. exact Hm.
  - intros i key Hi Hkey.
    destruct (lookup_lt_is_Some_2 values (Z.to_nat i)) as [v Hl]; [lia|].
    rewrite Hl. apply (Hin i v key); [|done]. apply Hzip. split; [lia|done].
  - intros key v [Hl|(i & [Hi Hl]%Hzip & Hk)]%Hdom; [done|].
    exists i. split; [by eapply binary_inv|done].
Qed.

(** ** Constructed rules *)

Lemma randint_range (a b entropy : Z) : a ≤ b → a ≤ randint a b entropy ≤ b.
Proof.
  intros H. unfold randint.
  pose proof (Z.mod_pos_bound entropy (b - a + 1)). lia.
Qed.

Lemma odd_width (n : nat) :
  (n mod 2 = 1)%nat → Z.of_nat n = 2 * (Z.of_nat n `div` 2) + 1.
Proof.
  intros H. pose proof (Nat.div_mod_eq n 2) as E. rewrite H in E.
  rewrite E at 1. rewrite Nat2Z.inj_add, Nat2Z.inj_mul, Nat2Z.inj_div. simpl. lia.
Qed.

Lemma init_explicit (entropy number : Z) (n : nat) :
  0 ≤ number < 2 ^ (2 ^ Z.of_nat n) → (n mod 2 = 1)%nat →
  ∃ m, Rule._get_mapping number n = Ok m ∧
       Rule.__init__ entropy (Some number) n =
         Ok {| Rule.number := number; Rule.n := n; Rule.mapping := m |}.
Proof.
  intros Hr Hodd. destruct (get_mapping_spec number n Hr) as (vs & m & _ & _ & _ & _ & Hm & _).
  exists m. split; [done|]. unfold Rule.__init__.
  replace (number <? 2 ^ 2 ^ Z.of_nat n) with true by (symmetry; apply Z.ltb_lt; lia).
  replace (n mod 2 =? 1)%nat with true by (symmetry; by apply Nat.eqb_eq).
  simpl. by rewrite Hm.
Qed.

Lemma constructed_inv (r : Rule.t) :
  constructed r →
  (Rule.n r mod 2 = 1)%nat ∧
  0 ≤ Rule.number r < 2 ^ (2 ^ Z.of_nat (Rule.n r)) ∧
  Rule._get_mapping (Rule.number r) (Rule.n r) = Ok (Rule.mapping r).
Proof.
  intros (entropy & number & n & H). unfold Rule.__init__ in H.
  set (k := match number with Some k => k | None => _ end) in H.
  destruct (Z.ltb_spec k (2 ^ 2 ^ Z.of_nat n)) as [Hlt|]; cbn [negb] in H; [|done].
  destruct (Nat.eqb_spec (n mod 2) 1) as [Hodd|]; cbn [negb] in H; [|done].
  destruct (Rule._get_mapping k n) as [m|e] eqn:Hm; simpl in H; [|done].
  injection H as <-. simpl. split; [done|]. split; [|done]. split; [|done].
  unfold Rule._get_mapping in Hm.
  destruct (binary k (2 ^ n)) as [vs|] eqn:Hvs; simpl in Hm; [|done].
  apply binary_inv in Hvs. lia.
Qed.

(** The table of a constructed rule is defined on every tuple of [n] binary
    values, and holds there the digit of the rule number that the tuple
    indexes. *)
Lemma mapping_total (r : Rule.t) (key : list Z) :
  constructed r → length key = Rule.n r → Forall is_bit key →
  ∃ values v,
    binary (Rule.number r) (2 ^ Rule.n r) = Ok values ∧
    binary (bits_value key) (Rule.n r) = Ok key ∧
    values !! Z.to_nat (bits_value key) = Some v ∧
    Rule.mapping r !! key = Some v ∧ is_bit v.
Proof.
  intros (Hodd & Hr & Hm)%constructed_inv Hlen Hb.
  destruct (get_mapping_spec _ _ Hr) as (vs & m & Hvs & Hlv & Hbv & _ & Hm' & Hin & _).
  rewrite Hm in Hm'. injection Hm' as <-.
  pose proof (bits_value_bound key Hb) as Hi. rewrite Hlen in Hi.
  destruct (binary_some _ _ Hi) as (key' & Hk & Hb' & Hv' & Hl').
  assert (key' = key) as ->.
  { apply bits_value_inj; [done..| |done]. rewrite Hl', Hlen.
    destruct (Rule.n r); [done|lia]. }
  destruct (lookup_lt_is_Some_2 vs (Z.to_nat (bits_value key))) as [v Hl].
  { rewrite Hlv. apply Nat2Z.inj_lt. rewrite Nat2Z.inj_pow, Z2Nat.id; simpl; lia. }
  exists vs, v. repeat split; try done.
  - rewrite (Hin _ key Hi Hk). done.
  - eapply Forall_lookup_1; [exact Hbv|exact Hl].
Qed.

(** ** One generation step *)

Lemma getitem_lookup (l : list Z) (k v : Z) :
  0 ≤ k → l !! Z.to_nat k = Some v → getitem l k = Ok v.
Proof.
  intros Hk Hl. pose proof (lookup_lt_Some _ _ _ Hl) as Hlt.
  unfold getitem, list_index.
  replace ((0 <=? k) && (k <? Z.of_nat (length l))) with true
    by (symmetry; apply andb_true_iff; lia).
  simpl. by rewrite Hl.
Qed.

Lemma for_in_collect {A B} (P : A → B → Prop)
    (body : list B → A → result (list B)) (xs : list A) (acc : list B) :
  (∀ x, x ∈ xs → ∃ y, P x y ∧ ∀ acc, body acc x = Ok (acc ++ [y])) →
  ∃ ys, for_in body xs acc = Ok (acc ++ ys) ∧ Forall2 P xs ys.
Proof.
  revert acc. induction xs as [|x xs IH]; intros acc H.
  - exists []. by rewrite app_nil_r.
  - destruct (H x) as (y & Hy & Hbody); [left|].
    destruct (IH (acc ++ [y])) as (ys & Hys & HP).
    { intros x' Hx'. apply H. by right. }
    exists (y :: ys). split; [|by constructor].
    simpl. rewrite Hbody. simpl. rewrite Hys. by rewrite <- app_assoc.
Qed.

Section step.
Variable self : CA.t.
Hypothesis Hlen : Z.of_nat (length (CA.cells self)) = CA.size self.

(** The neighbourhood of [i] is read from the cells of [self], at the
    indices [i - margin .. i + margin] taken modulo the size. *)
Lemma interval_cells_spec (margin i : Z) :
  0 < CA.size self → 0 ≤ margin →
  ∃ t, CA.interval_cells self margin i = Ok t ∧
       length t = Z.to_nat (2 * margin + 1) ∧
       (∀ d : nat, Z.of_nat d < 2 * margin + 1 →
          t !! d = CA.cells self
                     !! Z.to_nat ((i - margin + Z.of_nat d) `mod` CA.size self)) ∧
       (∀ x, x ∈ t → x ∈ CA.cells self).
Proof.
  intros Hs Hm.
  set (g := λ rel_i : Z,
         default 0 (CA.cells self !! Z.to_nat (rel_i `mod` CA.size self))).
  assert (∀ rel_i, CA.cells self !! Z.to_nat (rel_i `mod` CA.size self)
                   = Some (g rel_i)) as Hg.
  { intros rel_i. pose proof (Z.mod_pos_bound rel_i (CA.size self) Hs).
    destruct (lookup_lt_is_Some_2 (CA.cells self)
                (Z.to_nat (rel_i `mod` CA.size self))) as [v Hv]; [lia|].
    unfold g. by rewrite Hv. }
  exists (g <$> seqZ (i - margin) (2 * margin + 1)). split; [|split; [|split]].
  - unfold CA.interval_cells, range.
    replace (i + margin + 1 - (i - margin)) with (2 * margin + 1) by lia.
    apply tuple_for_fmap. intros rel_i _. apply getitem_lookup; [|apply Hg].
    pose proof (Z.mod_pos_bound rel_i (CA.size self) Hs). lia.
  - by rewrite length_fmap, length_seqZ.
  - intros d Hd. rewrite list_lookup_fmap, lookup_seqZ_lt by done. simpl.
    by rewrite Hg.
  - intros x (rel_i & -> & _)%list_elem_of_fmap.
    eapply list_elem_of_lookup_2, Hg.
Qed.

Variable rule : Rule.t.
Hypothesis Hrule : constructed rule.
Hypothesis Hbits : Forall is_bit (CA.cells self).

(** Position by position, the new cell is the table entry of the
    neighbourhood of that position in [self]. *)
Lemma next_cells_spec :
  ∃ new, CA.next_cells self rule = Ok new ∧
         Forall2 (λ i y, ∃ t, CA.interval_cells self
                                (Z.of_nat (Rule.n rule) `div` 2) i = Ok t ∧
                              length t = Rule.n rule ∧
                              Rule.mapping rule !! t = Some y ∧ is_bit y)
                 (range 0 (CA.size self)) new.
Proof.
  destruct (constructed_inv rule Hrule) as (Hodd%odd_width & _ & _).
  unfold CA.next_cells. set (margin := Z.of_nat (Rule.n rule) `div` 2) in *.
  apply (for_in_collect _ _ _ []).
  intros i Hi%elem_of_seqZ.
  destruct (interval_cells_spec margin i) as (t & Ht & Hlt & _ & Hin); [lia..|].
  assert (length t = Rule.n rule) as Hn by lia.
  destruct (mapping_total rule t Hrule Hn) as (_ & y & _ & _ & _ & Hy & Hb).
  { apply Forall_forall. intros x Hx%Hin. by eapply Forall_forall in Hbits. }
  exists y. split; [by exists t|].
  intros acc. rewrite Ht. simpl. unfold Rule.get_next_cell.
  rewrite Hn, Nat.eqb_refl. simpl. by rewrite Hy.
Qed.
End step.

(** What one call of [next_generation] does to a well-formed automaton. *)
Lemma next_generation_spec (self : CA.t) (rule : Rule.t) :
  constructed rule → cells_ok self →
  ∃ new,
    CA.next_generation self rule = (CA.with_cells self new, Ok tt) ∧
    length new = length (CA.cells self) ∧
    ∀ i : nat, (i < length (CA.cells self))%nat →
      ∃ t y,
        new !! i = Some y ∧ Rule.mapping rule !! t = Some y ∧ is_bit y ∧
        length t = Rule.n rule ∧
        (∀ x, x ∈ t → x ∈ CA.cells self) ∧
        ∀ d : nat, (d < Rule.n rule)%nat →
          t !! d = CA.cells self
                     !! Z.to_nat ((Z.of_nat i - Z.of_nat (Rule.n rule) `div` 2
                                   + Z.of_nat d) `mod` CA.size self).
Proof.
  intros Hrule [Hlen Hb].
  destruct (next_cells_spec self Hlen rule Hrule Hb) as (new & Hnew & HF).
  pose proof (Forall2_length _ _ _ HF) as Hl.
  unfold range in Hl. rewrite length_seqZ in Hl.
  exists new. split; [|split].
  - unfold CA.next_generation. by rewrite Hnew.
  - lia.
  - intros i Hi.
    assert (range 0 (CA.size self) !! i = Some (Z.of_nat i)) as Hri.
    { unfold range. rewrite lookup_seqZ_lt by lia. done. }
    destruct (Forall2_lookup_l _ _ _ _ _ HF Hri) as (y & Hy & t & Ht & Hlt & Hm & Hby).
    destruct (interval_cells_spec self Hlen (Z.of_nat (Rule.n rule) `div` 2) (Z.of_nat i))
      as (t' & Ht' & _ & Hd & Hin); [lia|apply Z.div_pos; lia|].
    rewrite Ht in Ht'. injection Ht' as <-.
    exists t, y. repeat split; try done.
    intros d Hdn. apply Hd.
    destruct (constructed_inv rule Hrule) as (Hodd%odd_width & _). lia.
Qed.

(** ** Seeding *)

Lemma setitem_in_range (l : list Z) (k v : Z) :
  0 ≤ k < Z.of_nat (length l) → setitem l k v = Ok (<[Z.to_nat k := v]> l).
Proof.
  intros H. unfold setitem, list_index.
  replace ((0 <=? k) && (k <? Z.of_nat (length l))) with true
    by (symmetry; apply andb_true_iff; lia).
  done.
Qed.

Lemma setitem_inv (l cs : list Z) (k v : Z) :
  setitem l k v = Ok cs → ∃ i : nat, cs = <[i := v]> l.
Proof.
  unfold setitem. destruct (list_index (length l) k) as [i|]; simpl; [|done].
  intros [= <-]. by exists i.
Qed.

(** A ring of [S] zeros with a single 1 written at position [p]. *)
Lemma seed_lookup (S p k : Z) :
  0 ≤ p < S → 0 ≤ k < S →
  <[Z.to_nat p := 1]> (replicate (Z.to_nat S) 0) !! Z.to_nat k
    = Some (if decide (k = p) then 1 else 0).
Proof.
  intros Hp Hk. rewrite list_lookup_insert, length_replicate.
  destruct (decide (k = p)) as [->|Hne].
  - rewrite decide_True; [done|]. split; [done|lia].
  - rewrite decide_False by lia. apply lookup_replicate_2. lia.
Qed.

(** ** The loop of [run] *)

Lemma emitted_length (rule : Rule.t) (k : nat) (self : CA.t) :
  length (emitted rule k self) = k.
Proof. revert self. induction k as [|k IH]; intros self; simpl; [done|]. by rewrite IH. Qed.

Lemma advance_ok (rule : Rule.t) (self : CA.t) :
  constructed rule → cells_ok self →
  CA.next_generation self rule = (advance rule self, Ok tt) ∧
  cells_ok (advance rule self).
Proof.
  intros Hrule Hok.
  destruct (next_generation_spec self rule Hrule Hok) as (new & Hstep & Hlen & Hnew).
  unfold advance. rewrite Hstep. split; [done|]. destruct Hok as [Hl Hb].
  split; simpl; [by rewrite Hlen|].
  apply Forall_lookup_2. intros i y Hy.
  destruct (Hnew i) as (_ & y' & Hy' & _ & Hbit & _).
  { rewrite <- Hlen. by eapply lookup_lt_Some. }
  rewrite Hy in Hy'. by injection Hy' as <-.
Qed.

Lemma str_ok (self : CA.t) :
  Forall is_bit (CA.cells self) → CA.__str__ self = Ok (render self).
Proof.
  intros Hb. unfold render, CA.__str__.
  rewrite (tuple_for_fmap _ (λ cell, if decide (cell = 0) then lit " " else lit "#")).
  - done.
  - intros x Hx. eapply Forall_forall in Hb; [|exact Hx]. by destruct Hb as [->| ->].
Qed.

Section run.
Variable rule : Rule.t.
Hypothesis Hrule : constructed rule.
Variable iteration_limit : Z.

Lemma run_loop_step (fuel : nat) (self : CA.t) (out : list str) (iteration : Z) :
  cells_ok self →
  CA.run_loop (S fuel) rule iteration_limit self out iteration =
    if (iteration + 1 >? iteration_limit) && (iteration_limit >? 0)
    then CA.Returned (advance rule self) (out ++ [render self]) (iteration + 1)
    else CA.run_loop fuel rule iteration_limit (advance rule self)
           (out ++ [render self]) (iteration + 1).
Proof.
  intros Hok. destruct (advance_ok rule self Hrule Hok) as [Hstep _].
  simpl. rewrite (str_ok self (proj2 Hok)), Hstep. done.
Qed.

(** With a positive limit the loop leaves when the counter first exceeds
    the limit, that is during iteration [iteration_limit + 1]. *)
Lemma run_loop_returns (k extra : nat) (self : CA.t) (out : list str) (iteration : Z) :
  0 < iteration_limit → 0 ≤ iteration →
  Z.of_nat k = iteration_limit - iteration → cells_ok self →
  CA.run_loop (S k + extra) rule iteration_limit self out iteration =
    CA.Returned (generations rule (S k) self) (out ++ emitted rule (S k) self)
                (iteration_limit + 1).
Proof.
  intros Hl. revert self out iteration.
  induction k as [|k IH]; intros self out iteration Hi Hk Hok;
    cbn [Nat.add]; rewrite run_loop_step by done.
  - replace ((iteration + 1 >? iteration_limit) && (iteration_limit >? 0)) with true
      by (symmetry; apply andb_true_iff; lia).
    simpl. f_equal. lia.
  - replace ((iteration + 1 >? iteration_limit) && (iteration_limit >? 0)) with false
      by (symmetry; apply andb_false_iff; lia).
    change (S (k + extra)) with (S k + extra)%nat.
    rewrite IH; [|lia|lia|by apply advance_ok].
    f_equal. rewrite <- app_assoc. done.
Qed.

(** With a non-positive limit the loop is still running after any number
    of iterations. *)
Lemma run_loop_forever (fuel : nat) (self : CA.t) (out : list str) (iteration : Z) :
  iteration_limit ≤ 0 → cells_ok self →
  CA.run_loop fuel rule iteration_limit self out iteration =
    CA.Looping (generations rule fuel self) (out ++ emitted rule fuel self)
               (iteration + Z.of_nat fuel).
Proof.
  intros Hl. revert self out iteration.
  induction fuel as [|fuel IH]; intros self out iteration Hok.
  - simpl. rewrite app_nil_r. f_equal. lia.
  - rewrite run_loop_step by done.
    replace ((iteration + 1 >? iteration_limit) && (iteration_limit >? 0)) with false
      by (symmetry; apply andb_false_iff; lia).
    rewrite IH by (by apply advance_ok). simpl. rewrite <- app_assoc. f_equal. lia.
Qed.
End run.

(** ** Two concrete objects *)

Lemma rule_90_constructed : constructed rule_90.
Proof. exists 0, (Some 90), 3%nat. vm_compute. reflexivity. Qed.

Lemma ring_5_ok : cells_ok ring_5.
Proof.
  split; [reflexivity|].
  repeat constructor; first [by left | by right].
Qed.

(** * The specification, claim by claim *)

(** ** [binary] *)

(** C5, as stated, at [number = 0] and [digits = 0]: the precondition
    [0 <= number < 2^digits] holds, yet the tuple returned is [(0,)], which has
    one element and not [digits] of them ([bin(0)] is ["0b0"] and [zfill]
    never shortens). *)
Lemma binary_zero_digits :
  ¬ (0 ≤ 0 < 2 ^ Z.of_nat 0 → ∃ l, binary 0 0 = Ok l ∧ length l = 0%nat).
Proof.
  intros H. destruct H as (l & Hl & Hlen); [lia|].
  vm_compute in Hl. injection Hl as <-. discriminate Hlen.
Qed.

(** C5, amended to [digits >= 1]: for [0 <= number < 2^digits], [binary]
    returns exactly [digits] binary values that denote [number], most
    significant first (the value at index [k] is the bit of weight
    [2^(digits - 1 - k)], so the padding is made of zeros on the left); for a
    negative [number] or [number >= 2^digits] (any [digits]) the assertion
    fails; and [binary(5, 4) = (0,1,0,1)], [binary(0, 1) = (0,)], [binary(2, 1)]
    fails. *)
Theorem binary_correct (number : Z) (digits : nat) :
  ((1 ≤ digits)%nat → 0 ≤ number < 2 ^ Z.of_nat digits →
   ∃ l, binary number digits = Ok l ∧ length l = digits ∧ Forall is_bit l ∧
        bits_value l = number ∧
        ∀ k : nat, (k < digits)%nat →
          l !! k = Some (Z.b2z (Z.testbit number (Z.of_nat digits - 1 - Z.of_nat k)))) ∧
  (number < 0 ∨ 2 ^ Z.of_nat digits ≤ number →
   binary number digits = Raise AssertionError) ∧
  binary 5 4 = Ok [0; 1; 0; 1] ∧ binary 0 1 = Ok [0] ∧
  binary 2 1 = Raise AssertionError.
Proof.
  split; [|split; [apply binary_raise|done]].
  intros Hd Hr. destruct (binary_some number digits Hr) as (l & Hl & Hb & Hv & Hlen).
  rewrite Nat.max_r in Hlen by done.
  exists l. repeat split; try done.
  intros k Hk. rewrite <- Hv, <- Hlen. apply bits_value_testbit; [done|lia].
Qed.

Lemma binary_correct_witness :
  ∃ l, binary 5 4 = Ok l ∧ length l = 4%nat ∧ Forall is_bit l ∧ bits_value l = 5 ∧
       ∀ k : nat, (k < 4)%nat →
         l !! k = Some (Z.b2z (Z.testbit 5 (Z.of_nat 4 - 1 - Z.of_nat k))).
Proof.
  apply (proj1 (binary_correct 5 4)); [lia|simpl; lia].
Defined.

(** ** [Rule] *)

(** C6: with an explicit, non-negative [number], the constructor fails on an
    assertion if [number >= 2^(2^n)] or if [n] is even, and otherwise returns
    a rule carrying that [number] and [n]. *)
Theorem rule_init_checks (entropy number : Z) (n : nat) :
  0 ≤ number →
  (2 ^ (2 ^ Z.of_nat n) ≤ number ∨ (n mod 2 = 0)%nat →
   Rule.__init__ entropy (Some number) n = Raise AssertionError) ∧
  (number < 2 ^ (2 ^ Z.of_nat n) → (n mod 2 = 1)%nat →
   ∃ r, Rule.__init__ entropy (Some number) n = Ok r ∧
        Rule.number r = number ∧ Rule.n r = n).
Proof.
  intros Hn. split.
  - intros H. unfold Rule.__init__.
    destruct (Z.ltb_spec number (2 ^ 2 ^ Z.of_nat n)); cbn [negb]; [|done].
    destruct H as [H|H]; [lia|]. by rewrite H.
  - intros Hlt Hodd.
    destruct (init_explicit entropy number n) as (m & _ & ->); [lia|done|].
    by eexists.
Qed.

Lemma rule_init_checks_witness :
  ∃ r, Rule.__init__ 0 (Some 60) 3 = Ok r ∧ Rule.number r = 60 ∧ Rule.n r = 3%nat.
Proof.
  destruct (rule_init_checks 0 60 3) as [_ Hok]; [lia|].
  apply Hok; [simpl; lia|reflexivity].
Defined.

(** C2: in a rule built from a valid [number] and an odd [n], the table sends
    the [n]-digit tuple of each pattern index [i < 2^n] to the digit at index
    [i] of [binary(number, 2^n)], that is to the bit of weight
    [2^(2^n - 1 - i)] of [number]; and rule 60 with [n = 3] sends [(1,1,0)] to
    0 and [(0,1,1)] to 1. *)
Theorem mapping_digit :
  (∀ (entropy number : Z) (n : nat) (i : Z),
     0 ≤ number < 2 ^ (2 ^ Z.of_nat n) → (n mod 2 = 1)%nat →
     0 ≤ i < 2 ^ Z.of_nat n →
     ∃ r key values,
       Rule.__init__ entropy (Some number) n = Ok r ∧
       binary i n = Ok key ∧ length key = n ∧
       binary number (2 ^ n) = Ok values ∧ length values = (2 ^ n)%nat ∧
       Rule.mapping r !! key = values !! Z.to_nat i ∧
       values !! Z.to_nat i
         = Some (Z.b2z (Z.testbit number (2 ^ Z.of_nat n - 1 - i)))) ∧
  (∀ entropy, ∃ r, Rule.__init__ entropy (Some 60) 3 = Ok r ∧
     Rule.mapping r !! [1; 1; 0] = Some 0 ∧
     Rule.mapping r !! [0; 1; 1] = Some 1).
Proof.
  split.
  - intros entropy number n i Hr Hodd Hi.
    destruct (init_explicit entropy number n Hr Hodd) as (m & Hm & Hinit).
    destruct (get_mapping_spec number n Hr)
      as (vs & m' & Hvs & Hlv & Hbv & Hv & Hm' & Hin & _).
    rewrite Hm in Hm'. injection Hm' as <-.
    destruct (binary_some i n Hi) as (key & Hk & _ & _ & Hlk).
    rewrite Nat.max_r in Hlk by (destruct n; [done|lia]).
    eexists _, key, vs. repeat split; try done.
    + simpl. by apply Hin.
    + assert (Z.to_nat i < length vs)%nat as Hlt.
      { rewrite Hlv. apply Nat2Z.inj_lt. rewrite Nat2Z.inj_pow, Z2Nat.id; simpl; lia. }
      rewrite (bits_value_testbit vs _ Hbv Hlt), Hv, Hlv. do 3 f_equal.
      rewrite Nat2Z.inj_pow, Z2Nat.id; simpl; lia.
  - intros entropy. eexists. split; [reflexivity|]. split; vm_compute; reflexivity.
Qed.

Lemma mapping_digit_witness :
  ∃ r key values,
    Rule.__init__ 0 (Some 60) 3 = Ok r ∧
    binary 6 3 = Ok key ∧ length key = 3%nat ∧
    binary 60 (2 ^ 3) = Ok values ∧ length values = (2 ^ 3)%nat ∧
    Rule.mapping r !! key = values !! Z.to_nat 6 ∧
    values !! Z.to_nat 6 = Some (Z.b2z (Z.testbit 60 (2 ^ Z.of_nat 3 - 1 - 6))).
Proof.
  apply (proj1 mapping_digit 0 60 3%nat 6); [simpl; lia|reflexivity|simpl; lia].
Defined.

(** C4, as stated, at the rule 90 of width 3 and the tuple [(2, 0, 0)]: the
    tuple has exactly [n] elements, yet the table has no entry for it and
    [get_next_cell] fails on the lookup, since the keys of the table are
    tuples of 0 and 1 only. *)
Lemma get_next_cell_non_binary :
  ¬ (∀ r : Rule.t,
       Rule.__init__ 0 (Some 90) 3 = Ok r → length [2; 0; 0] = Rule.n r →
       ∃ v, Rule.mapping r !! [2; 0; 0] = Some v ∧
            Rule.get_next_cell r [2; 0; 0] = Ok v).
Proof.
  intros H. destruct (H rule_90) as (v & Hv & _).
  - vm_compute. reflexivity.
  - reflexivity.
  - vm_compute in Hv. discriminate Hv.
Qed.

(** C4, amended to tuples of binary values: for a rule built from [number]
    in [[0, 2^(2^n))] and an odd [n], [get_next_cell] fails on its assertion
    when the tuple does not have exactly [n] elements, and on every tuple of
    exactly [n] values that are each 0 or 1 the table has an entry, which is
    the value returned (itself 0 or 1). *)
Theorem get_next_cell_total (entropy number : Z) (n : nat) (interval_cells : list Z) :
  0 ≤ number < 2 ^ (2 ^ Z.of_nat n) → (n mod 2 = 1)%nat →
  ∃ r, Rule.__init__ entropy (Some number) n = Ok r ∧
       (length interval_cells ≠ n →
        Rule.get_next_cell r interval_cells = Raise AssertionError) ∧
       (length interval_cells = n → Forall is_bit interval_cells →
        ∃ v, Rule.mapping r !! interval_cells = Some v ∧
             Rule.get_next_cell r interval_cells = Ok v ∧ is_bit v).
Proof.
  intros Hr Hodd.
  destruct (init_explicit entropy number n Hr Hodd) as (m & Hm & Hinit).
  eexists. split; [exact Hinit|]. split.
  - intros Hne. unfold Rule.get_next_cell. simpl.
    by destruct (Nat.eqb_spec (length interval_cells) n).
  - intros Hlen Hb.
    destruct (mapping_total _ interval_cells (ex_intro _ entropy (ex_intro _ _
                (ex_intro _ _ Hinit))) Hlen Hb) as (_ & v & _ & _ & _ & Hv & Hbv).
    exists v. split; [done|]. split; [|done].
    unfold Rule.get_next_cell. simpl in *. by rewrite Hlen, Nat.eqb_refl, Hv.
Qed.

Lemma get_next_cell_total_witness :
  ∃ r, Rule.__init__ 0 (Some 90) 3 = Ok r ∧
       ∃ v, Rule.mapping r !! [1; 0; 0] = Some v ∧
            Rule.get_next_cell r [1; 0; 0] = Ok v ∧ is_bit v.
Proof.
  destruct (get_next_cell_total 0 90 3 [1; 0; 0]) as (r & Hr & _ & Hv);
    [simpl; lia|reflexivity|].
  exists r. split; [exact Hr|].
  apply Hv; [reflexivity|].
  repeat constructor; first [by left | by right].
Defined.

(** ** [CellularAutomata.next_generation] *)

Lemma mod_minus_one (S : Z) : 0 < S → (-1) `mod` S = S - 1.
Proof. intros H. symmetry. apply (Z.mod_unique_pos _ _ (-1)); lia. Qed.

(** C1: on an automaton of size [S > 0] with binary cells, and a rule of odd
    width [n] with [margin = n // 2], [next_generation] returns normally and
    replaces the cells by a sequence [new] of [S] values; [new[i]] is the
    table entry of the tuple of the [n] cells of the previous generation at
    the indices [(i - margin + d) mod S], [d = 0 .. n-1].  For [n = 3] the
    tuple of position 0 is (cell [S-1], cell 0, cell [1 mod S]) and the tuple
    of position [S-1] is (cell [(S-2) mod S], cell [S-1], cell 0). *)
Theorem next_generation_ring (self : CA.t) (rule : Rule.t) :
  constructed rule → 0 < CA.size self → cells_ok self →
  let S := CA.size self in
  let old := CA.cells self in
  let margin := Z.of_nat (Rule.n rule) `div` 2 in
  ∃ new,
    CA.next_generation self rule = ({| CA._size := S; CA.cells := new |}, Ok tt) ∧
    Z.of_nat (length new) = S ∧
    (∀ i, 0 ≤ i < S →
       ∃ t, length t = Rule.n rule ∧
            (∀ d : nat, (d < Rule.n rule)%nat →
               t !! d = old !! Z.to_nat ((i - margin + Z.of_nat d) `mod` S)) ∧
            is_Some (Rule.mapping rule !! t) ∧
            new !! Z.to_nat i = Rule.mapping rule !! t) ∧
    (Rule.n rule = 3%nat →
       (∃ a b c, old !! Z.to_nat (S - 1) = Some a ∧ old !! 0%nat = Some b ∧
                 old !! Z.to_nat (1 `mod` S) = Some c ∧
                 new !! 0%nat = Rule.mapping rule !! [a; b; c]) ∧
       (∃ a b c, old !! Z.to_nat ((S - 2) `mod` S) = Some a ∧
                 old !! Z.to_nat (S - 1) = Some b ∧ old !! 0%nat = Some c ∧
                 new !! Z.to_nat (S - 1) = Rule.mapping rule !! [a; b; c])).
Proof.
  intros Hrule Hs Hok S old margin.
  destruct (next_generation_spec self rule Hrule Hok) as (new & Hstep & Hlen & Hnew).
  destruct Hok as [Hl Hb]. fold S old in Hl, Hlen, Hnew.
  assert (∀ i, 0 ≤ i < S →
       ∃ t, length t = Rule.n rule ∧
            (∀ d : nat, (d < Rule.n rule)%nat →
               t !! d = old !! Z.to_nat ((i - margin + Z.of_nat d) `mod` S)) ∧
            is_Some (Rule.mapping rule !! t) ∧
            new !! Z.to_nat i = Rule.mapping rule !! t) as Hall.
  { intros i Hi.
    destruct (Hnew (Z.to_nat i)) as (t & y & Hy & Hm & _ & Hlt & _ & Hd); [lia|].
    rewrite Z2Nat.id in Hd by lia.
    exists t. split; [done|]. split; [done|]. rewrite Hm. split; [by eexists|done]. }
  exists new. split; [done|]. split; [lia|]. split; [done|].
  intros Hn3.
  assert (margin = 1) as Hm1 by (unfold margin; by rewrite Hn3).
  split.
  - destruct (Hall 0) as (t & Hlt & Hd & _ & Ht); [lia|].
    rewrite Hn3 in Hlt, Hd. rewrite Hm1 in Hd.
    destruct t as [|a [|b [|c [|]]]]; try done.
    pose proof (Hd 0%nat ltac:(lia)) as H0.
    pose proof (Hd 1%nat ltac:(lia)) as H1.
    pose proof (Hd 2%nat ltac:(lia)) as H2.
    simpl in H0, H1, H2. rewrite mod_minus_one in H0 by done.
    rewrite Z.mod_0_l in H1 by lia.
    exists a, b, c. by repeat split.
  - destruct (Hall (S - 1)) as (t & Hlt & Hd & _ & Ht); [lia|].
    rewrite Hn3 in Hlt, Hd. rewrite Hm1 in Hd.
    destruct t as [|a [|b [|c [|]]]]; try done.
    pose proof (Hd 0%nat ltac:(lia)) as H0.
    pose proof (Hd 1%nat ltac:(lia)) as H1.
    pose proof (Hd 2%nat ltac:(lia)) as H2.
    simpl in H0, H1, H2.
    replace (S - 1 - 1 + Z.of_nat 0) with (S - 2) in H0 by lia.
    replace (S - 1 - 1 + Z.of_nat 1) with (S - 1) in H1 by lia.
    replace (S - 1 - 1 + Z.of_nat 2) with S in H2 by lia.
    rewrite Z.mod_small in H1 by lia. rewrite Z.mod_same in H2 by lia.
    exists a, b, c. by repeat split.
Qed.

Lemma next_generation_ring_witness :
  ∃ new, CA.next_generation ring_5 rule_90
           = ({| CA._size := 5; CA.cells := new |}, Ok tt) ∧
         Z.of_nat (length new) = 5.
Proof.
  destruct (next_generation_ring ring_5 rule_90) as (new & Hstep & Hlen & _).
  - exact rule_90_constructed.
  - reflexivity.
  - exact ring_5_ok.
  - exists new. split; [exact Hstep|exact Hlen].
Defined.

(** C8: if the table of a rule sends the all-zero tuple of its width to 0,
    one generation step on an all-zero automaton returns normally and leaves
    the automaton as it was. *)
Theorem zero_ring_fixed (self : CA.t) (rule : Rule.t) :
  constructed rule →
  Rule.mapping rule !! replicate (Rule.n rule) 0 = Some 0 →
  CA.cells self = replicate (Z.to_nat (CA.size self)) 0 →
  CA.next_generation self rule = (self, Ok tt).
Proof.
  intros Hrule Hzero Hcells.
  destruct (decide (0 < CA.size self)) as [Hs|Hs].
  - assert (cells_ok self) as Hok.
    { split; rewrite Hcells; [rewrite length_replicate; lia|].
      apply Forall_replicate. by left. }
    destruct (next_generation_spec self rule Hrule Hok) as (new & -> & Hlen & Hnew).
    f_equal. destruct self as [sz cs]. unfold CA.with_cells. simpl in *. f_equal.
    rewrite Hcells in Hlen. rewrite length_replicate in Hlen. rewrite Hcells.
    symmetry. apply replicate_as_Forall. split; [done|].
    apply Forall_lookup_2. intros i y Hy.
    destruct (Hnew i) as (t & y' & Hy' & Hm & _ & Hlt & Hin & _).
    { rewrite Hcells, length_replicate, <- Hlen. by eapply lookup_lt_Some. }
    rewrite Hy in Hy'. injection Hy' as <-.
    assert (t = replicate (Rule.n rule) 0) as ->.
    { symmetry. apply replicate_as_Forall. split; [done|].
      apply Forall_forall. intros x Hx%Hin. rewrite Hcells in Hx.
      symmetry. by eapply elem_of_replicate_inv. }
    rewrite Hzero in Hm. by injection Hm.
  - unfold CA.next_generation, CA.next_cells, range.
    rewrite seqZ_nil by lia. simpl.
    f_equal. destruct self as [sz cs]. unfold CA.with_cells. simpl in *. f_equal.
    rewrite Hcells. by replace (Z.to_nat sz) with 0%nat by lia.
Qed.

Lemma zero_ring_fixed_witness :
  CA.next_generation (CA.__init__ 5) rule_90 = (CA.__init__ 5, Ok tt).
Proof.
  apply zero_ring_fixed.
  - exact rule_90_constructed.
  - vm_compute. reflexivity.
  - reflexivity.
Defined.

(** ** State of the automaton *)

(** C10, as stated, at [CellularAutomata(-3)]: [[0] * -3] is the empty
    list, so construction leaves no cell while [size] is -3: the cells are
    not a sequence of exactly [size] elements. *)
Lemma negative_size_cells : ¬ cells_ok (CA.__init__ (-3)).
Proof. intros [Hlen _]. vm_compute in Hlen. discriminate Hlen. Qed.

(** C10, amended to automata of non-negative size: construction,
    [init_zeroes], [init_single] and [randomize] leave [size] cells that are
    each 0 or 1 (and keep the size); [next_generation] with a constructed
    rule, on an automaton in that condition, returns normally, keeps the
    number of cells, and every value it writes is an output of the rule's
    table, hence 0 or 1. *)
Theorem cells_invariant :
  (∀ size, 0 ≤ size → cells_ok (CA.__init__ size) ∧ CA.size (CA.__init__ size) = size) ∧
  (∀ self, 0 ≤ CA.size self →
     cells_ok (CA.init_zeroes self) ∧ CA.size (CA.init_zeroes self) = CA.size self) ∧
  (∀ self pos, 0 ≤ CA.size self →
     cells_ok (CA.init_single self pos).1 ∧
     CA.size (CA.init_single self pos).1 = CA.size self) ∧
  (∀ entropy self, 0 ≤ CA.size self →
     cells_ok (CA.randomize entropy self) ∧
     CA.size (CA.randomize entropy self) = CA.size self) ∧
  (∀ self rule, constructed rule → cells_ok self →
     ∃ new, CA.next_generation self rule = (CA.with_cells self new, Ok tt) ∧
            cells_ok (CA.with_cells self new) ∧
            length new = length (CA.cells self) ∧
            ∀ y, y ∈ new → is_bit y ∧ ∃ t, Rule.mapping rule !! t = Some y).
Proof.
  assert (∀ self, 0 ≤ CA.size self →
            cells_ok (CA.with_cells self (replicate (Z.to_nat (CA.size self)) 0)))
    as Hzeros.
  { intros self Hs. split; simpl.
    - rewrite length_replicate. unfold CA.size in *. simpl. lia.
    - apply Forall_replicate. by left. }
  assert (∀ self (cs : list Z) (i : nat),
            cells_ok (CA.with_cells self cs) →
            cells_ok (CA.with_cells self (<[i := 1]> cs))) as Hins.
  { intros self cs i [Hl Hb]. split; simpl in *.
    - by rewrite length_insert.
    - apply Forall_insert; [done|by right]. }
  split; [|split; [|split; [|split]]].
  - intros size Hs. split; [|done]. by apply (Hzeros {| CA._size := size; CA.cells := [] |}).
  - intros self Hs. split; [|done]. by apply Hzeros.
  - intros self pos Hs. unfold CA.init_single.
    set (self0 := CA.with_cells self (replicate (Z.to_nat (CA.size self)) 0)).
    assert (cells_ok self0) as H0 by (by apply Hzeros).
    destruct pos as [|p|]; [| |done].
    + destruct (setitem _ _ 1) as [cs|e] eqn:Hset; [|done].
      apply setitem_inv in Hset as [i ->]. split; [|done]. by apply (Hins self0).
    + destruct (negb _); [done|].
      destruct (setitem _ _ 1) as [cs|e] eqn:Hset; [|done].
      apply setitem_inv in Hset as [i ->]. split; [|done]. by apply (Hins self0).
  - intros entropy self Hs. split; [|done]. split; simpl.
    + rewrite length_fmap, length_seq. unfold CA.size in *. lia.
    + apply Forall_fmap, Forall_forall. intros k _. simpl.
      pose proof (randint_range 0 1 (entropy k)). unfold is_bit. lia.
  - intros self rule Hrule Hok.
    destruct (next_generation_spec self rule Hrule Hok) as (new & Hstep & Hlen & Hnew).
    assert (∀ y, y ∈ new → is_bit y ∧ ∃ t, Rule.mapping rule !! t = Some y) as Hout.
    { intros y [i Hy]%list_elem_of_lookup_1.
      destruct (Hnew i) as (t & y' & Hy' & Hm & Hbit & _).
      { rewrite <- Hlen. by eapply lookup_lt_Some. }
      rewrite Hy in Hy'. injection Hy' as <-. split; [done|by exists t]. }
    exists new. split; [done|]. split; [|split; [done|done]].
    destruct Hok as [Hl Hb]. split; simpl; [by rewrite Hlen|].
    apply Forall_forall. intros y Hy. by apply Hout.
Qed.

Lemma cells_invariant_witness :
  (cells_ok (CA.__init__ 5) ∧ CA.size (CA.__init__ 5) = 5) ∧
  (cells_ok (CA.init_single (CA.__init__ 5) (CA.PosInt 7)).1 ∧
   CA.size (CA.init_single (CA.__init__ 5) (CA.PosInt 7)).1 = 5) ∧
  ∃ new, CA.next_generation ring_5 rule_90 = (CA.with_cells ring_5 new, Ok tt) ∧
         cells_ok (CA.with_cells ring_5 new) ∧
         length new = length (CA.cells ring_5) ∧
         ∀ y, y ∈ new → is_bit y ∧ ∃ t, Rule.mapping rule_90 !! t = Some y.
Proof.
  destruct cells_invariant as (Hinit & _ & Hsingle & _ & Hnext).
  split; [|split].
  - apply (Hinit 5). lia.
  - apply (Hsingle (CA.__init__ 5) (CA.PosInt 7)). simpl. lia.
  - apply (Hnext ring_5 rule_90); [exact rule_90_constructed|exact ring_5_ok].
Defined.

(** C7: on an automaton of size [S > 0], [init_single()] returns normally
    with [S] cells of which the one at index [S // 2] is 1 and all others are
    0; [init_single(p)] with [0 <= p < S] does the same with index [p]; and
    [init_single(p)] with an integer [p] outside [[0, S)] fails on its
    assertion. *)
Theorem init_single_seed (self : CA.t) :
  0 < CA.size self →
  let S := CA.size self in
  (∃ new, CA.init_single self CA.PosNone = ({| CA._size := S; CA.cells := new |}, Ok tt) ∧
          Z.of_nat (length new) = S ∧
          ∀ k, 0 ≤ k < S →
            new !! Z.to_nat k = Some (if decide (k = S `div` 2) then 1 else 0)) ∧
  (∀ p, 0 ≤ p < S →
     ∃ new, CA.init_single self (CA.PosInt p)
              = ({| CA._size := S; CA.cells := new |}, Ok tt) ∧
            Z.of_nat (length new) = S ∧
            ∀ k, 0 ≤ k < S →
              new !! Z.to_nat k = Some (if decide (k = p) then 1 else 0)) ∧
  (∀ p, p < 0 ∨ S ≤ p →
     (CA.init_single self (CA.PosInt p)).2 = Raise AssertionError).
Proof.
  intros Hs S.
  assert (∀ p, 0 ≤ p < S →
            setitem (replicate (Z.to_nat (CA.size self)) 0) p 1
              = Ok (<[Z.to_nat p := 1]> (replicate (Z.to_nat S) 0))) as Hset.
  { intros p Hp. apply setitem_in_range. rewrite length_replicate. fold S. lia. }
  assert (∀ p, 0 ≤ p < S →
            Z.of_nat (length (<[Z.to_nat p := 1]> (replicate (Z.to_nat S) 0))) = S)
    as Hlen.
  { intros p Hp. rewrite length_insert, length_replicate. lia. }
  split; [|split].
  - assert (0 ≤ S `div` 2 < S) as Hmid.
    { split; [apply Z.div_pos; lia|apply Z.div_lt; lia]. }
    eexists. unfold CA.init_single. cbn [CA.with_cells CA.cells CA.size CA._size].
    fold (CA.size self). fold S. change (CA.size self) with S in Hset.
    rewrite (Hset _ Hmid). split; [reflexivity|]. split; [by apply Hlen|].
    intros k Hk. by apply seed_lookup.
  - intros p Hp. eexists. unfold CA.init_single.
    cbn [CA.with_cells CA.cells CA.size CA._size].
    fold (CA.size self). fold S. change (CA.size self) with S in Hset.
    replace ((0 <=? p) && (p <? S)) with true by (symmetry; apply andb_true_iff; lia).
    cbn [negb]. rewrite (Hset _ Hp). split; [reflexivity|]. split; [by apply Hlen|].
    intros k Hk. by apply seed_lookup.
  - intros p Hp. unfold CA.init_single.
    cbn [CA.with_cells CA.cells CA.size CA._size]. fold (CA.size self). fold S.
    replace ((0 <=? p) && (p <? S)) with false by (symmetry; apply andb_false_iff; lia).
    done.
Qed.

Lemma init_single_seed_witness :
  (∃ new, CA.init_single (CA.__init__ 5) CA.PosNone
            = ({| CA._size := 5; CA.cells := new |}, Ok tt) ∧
          Z.of_nat (length new) = 5 ∧
          ∀ k, 0 ≤ k < 5 → new !! Z.to_nat k = Some (if decide (k = 5 `div` 2) then 1 else 0)) ∧
  (CA.init_single (CA.__init__ 5) (CA.PosInt 5)).2 = Raise AssertionError.
Proof.
  destruct (init_single_seed (CA.__init__ 5)) as (Hnone & _ & Hout).
  - reflexivity.
  - split; [exact Hnone|]. apply Hout. simpl. lia.
Defined.

(** C9: assigning a positive [v] to [size] sets the size to [v] and the cells
    to exactly [v] zeros, whatever the cells were. *)
Theorem size_setter_resets (self : CA.t) (v : Z) :
  0 < v →
  CA.size (CA.set_size self v) = v ∧
  CA.cells (CA.set_size self v) = replicate (Z.to_nat v) 0 ∧
  Z.of_nat (length (CA.cells (CA.set_size self v))) = v ∧
  ∀ other, CA.set_size other v = CA.set_size self v.
Proof.
  intros Hv. split; [done|]. split; [done|]. split; [|done].
  simpl. rewrite length_replicate. lia.
Qed.

Lemma size_setter_resets_witness :
  CA.size (CA.set_size ring_5 3) = 3 ∧
  CA.cells (CA.set_size ring_5 3) = replicate (Z.to_nat 3) 0 ∧
  Z.of_nat (length (CA.cells (CA.set_size ring_5 3))) = 3 ∧
  ∀ other, CA.set_size other 3 = CA.set_size ring_5 3.
Proof.
  apply (size_setter_resets ring_5 3). lia.
Defined.

(** ** [run] *)

(** What [run] does on a well-formed automaton with a constructed rule: with
    a positive limit it returns, after [iteration_limit + 1] printed lines and
    as many generation steps; with a non-positive limit it is still looping
    after any number of iterations; without a limit it takes [size // 2]. *)
Lemma run_positive_limit (self : CA.t) (rule : Rule.t) (limit : Z) (extra : nat) :
  constructed rule → cells_ok self → 0 < limit →
  let k := S (Z.to_nat limit) in
  CA.run (k + extra) self rule (Some limit) =
    CA.Returned (generations rule k self) (emitted rule k self) (limit + 1).
Proof.
  intros Hrule Hok Hl k. unfold CA.run.
  apply (run_loop_returns rule Hrule limit (Z.to_nat limit) extra self [] 0); [lia..|done].
Qed.

Lemma run_nonpositive_limit (self : CA.t) (rule : Rule.t) (limit : Z) (fuel : nat) :
  constructed rule → cells_ok self → limit ≤ 0 →
  CA.run fuel self rule (Some limit) =
    CA.Looping (generations rule fuel self) (emitted rule fuel self) (Z.of_nat fuel).
Proof.
  intros Hrule Hok Hl. unfold CA.run.
  by rewrite (run_loop_forever rule Hrule limit fuel self [] 0).
Qed.

Lemma run_default_limit (self : CA.t) (rule : Rule.t) (fuel : nat) :
  CA.run fuel self rule None = CA.run fuel self rule (Some (CA.size self `div` 2)).
Proof. reflexivity. Qed.

(** C3: [run] is meant to stop after [iteration_limit] generation steps.  On
    the five-cell ring seeded in the middle, with rule 90 and
    [iteration_limit = 1], the loop is still running after one iteration (one
    line printed, one step made, counter 1) and the call returns only when
    the counter has reached 2: two lines have been printed and the cells are
    those of the second generation after the seed.  In general the loop makes
    [iteration_limit + 1] iterations ([run_positive_limit]). *)
Theorem run_limit_one :
  CA.run 1 ring_5 rule_90 (Some 1) =
    CA.Looping {| CA._size := 5; CA.cells := [0; 1; 0; 1; 0] |} [lit "  #  "] 1 ∧
  CA.run 2 ring_5 rule_90 (Some 1) =
    CA.Returned {| CA._size := 5; CA.cells := [1; 0; 0; 0; 1] |}
                [lit "  #  "; lit " # # "] 2 ∧
  generations rule_90 1 ring_5 = {| CA._size := 5; CA.cells := [0; 1; 0; 1; 0] |} ∧
  generations rule_90 2 ring_5 = {| CA._size := 5; CA.cells := [1; 0; 0; 0; 1] |}.
Proof. repeat split; vm_compute; reflexivity. Qed.

(** * Further properties of the code *)

(** ** [binary] as a numbering of digit tuples *)

(** X1: [binary(_, digits)] is one-to-one, and for [digits >= 1] it reaches
    every tuple of [digits] binary values: such a tuple [l] is the result of
    [binary] on the number [l] denotes. *)
Theorem binary_bijective (digits : nat) :
  (∀ a b l, binary a digits = Ok l → binary b digits = Ok l → a = b) ∧
  (∀ l, length l = digits → (1 ≤ digits)%nat → Forall is_bit l →
     0 ≤ bits_value l < 2 ^ Z.of_nat digits ∧
     binary (bits_value l) digits = Ok l).
Proof.
  split.
  - intros a b l Ha Hb.
    destruct (binary_some a digits) as (la & Hla & _ & Hva & _); [by eapply binary_inv|].
    destruct (binary_some b digits) as (lb & Hlb & _ & Hvb & _); [by eapply binary_inv|].
    rewrite Ha in Hla. rewrite Hb in Hlb.
    injection Hla as <-. injection Hlb as <-. by rewrite <- Hva, <- Hvb.
  - intros l Hlen Hd Hb.
    pose proof (bits_value_bound l Hb) as Hv. rewrite Hlen in Hv. split; [done|].
    destruct (binary_some _ _ Hv) as (l' & Hl' & Hb' & Hv' & Hlen').
    rewrite Hl'. f_equal. apply bits_value_inj; [done..| |done].
    rewrite Hlen', Hlen. lia.
Qed.

Lemma binary_bijective_witness :
  0 ≤ bits_value [1; 1; 0] < 2 ^ Z.of_nat 3 ∧
  binary (bits_value [1; 1; 0]) 3 = Ok [1; 1; 0].
Proof.
  apply (proj2 (binary_bijective 3) [1; 1; 0]); [reflexivity|lia|].
  repeat constructor; first [by left | by right].
Defined.

(** ** Construction of a rule *)

Lemma init_fields (entropy number : Z) (n : nat) (r : Rule.t) :
  Rule.__init__ entropy (Some number) n = Ok r →
  Rule.number r = number ∧ Rule.n r = n.
Proof.
  unfold Rule.__init__.
  destruct (negb _); [done|]. destruct (negb _); [done|].
  destruct (Rule._get_mapping number n); simpl; [|done].
  by intros [= <-].
Qed.

Lemma init_raises (entropy number : Z) (n : nat) :
  number < 0 ∨ 2 ^ (2 ^ Z.of_nat n) ≤ number ∨ (n mod 2 = 0)%nat →
  Rule.__init__ entropy (Some number) n = Raise AssertionError.
Proof.
  intros H. unfold Rule.__init__.
  destruct (Z.ltb_spec number (2 ^ 2 ^ Z.of_nat n)); cbn [negb]; [|done].
  destruct (Nat.eqb_spec (n mod 2) 1) as [Hodd|Hodd]; cbn [negb]; [|done].
  unfold Rule._get_mapping. rewrite binary_raise by lia. done.
Qed.

(** X2: for a width [n >= 0] and an explicit number, the constructor
    succeeds exactly when [0 <= number < 2^(2^n)] and [n] is odd, and in
    every other case with [n >= 0] it fails on an assertion.  A negative
    number passes the range check of [__init__] itself and is refused by the
    assertion of [binary], called from [_get_mapping].  (A negative [n] makes
    [2**n] a float and is outside this embedding.) *)
Theorem rule_init_iff (entropy number : Z) (n : nat) :
  ((∃ r, Rule.__init__ entropy (Some number) n = Ok r) ↔
   0 ≤ number < 2 ^ (2 ^ Z.of_nat n) ∧ (n mod 2 = 1)%nat) ∧
  (number < 0 ∨ 2 ^ (2 ^ Z.of_nat n) ≤ number ∨ (n mod 2 = 0)%nat →
   Rule.__init__ entropy (Some number) n = Raise AssertionError) ∧
  (number < 0 → Rule._get_mapping number n = Raise AssertionError).
Proof.
  assert (number < 0 → Rule._get_mapping number n = Raise AssertionError) as Hneg.
  { intros H. unfold Rule._get_mapping. rewrite binary_raise by lia. done. }
  split; [split|split].
  - intros [r Hr].
    destruct (constructed_inv r) as (Hodd & Hrange & _).
    { by exists entropy, (Some number), n. }
    destruct (init_fields _ _ _ _ Hr) as [<- <-]. done.
  - intros [Hr Hodd].
    destruct (init_explicit entropy number n Hr Hodd) as (m & _ & ->). by eexists.
  - apply init_raises.
  - done.
Qed.

Lemma rule_init_iff_witness :
  Rule.__init__ 0 (Some (-1)) 3 = Raise AssertionError ∧
  Rule._get_mapping (-1) 3 = Raise AssertionError.
Proof.
  destruct (rule_init_iff 0 (-1) 3) as (_ & Hfail & Hmap).
  split; [apply Hfail; lia|apply Hmap; lia].
Defined.



(** ** The table of a rule *)

Lemma mapping_lookup_is_Some (r : Rule.t) (key : list Z) :
  constructed r →
  is_Some (Rule.mapping r !! key) ↔ length key = Rule.n r ∧ Forall is_bit key.
Proof.
  intros Hc. destruct (constructed_inv r Hc) as (Hodd & Hr & Hm).
  destruct (get_mapping_spec _ _ Hr) as (vs & m & _ & _ & _ & _ & Hm' & _ & Hdom).
  rewrite Hm in Hm'. injection Hm' as <-.
  assert (1 ≤ Rule.n r)%nat as Hn1 by (destruct (Rule.n r); [done|lia]).
  split.
  - intros [v (i & Hi & Hk & _)%Hdom].
    destruct (binary_some _ _ Hi) as (l & Hl & Hb & _ & Hlen).
    rewrite Hk in Hl. injection Hl as <-. split; [lia|done].
  - intros [Hlen Hb].
    destruct (mapping_total r key Hc Hlen Hb) as (_ & v & _ & _ & _ & Hv & _).
    by exists v.
Qed.

(** X4: the table of a constructed rule has an entry exactly for the tuples
    of [n] binary values, it has [2^n] entries, and every value in it is 0
    or 1. *)
Theorem mapping_domain (r : Rule.t) :
  constructed r →
  (∀ key, is_Some (Rule.mapping r !! key) ↔
          length key = Rule.n r ∧ Forall is_bit key) ∧
  size (Rule.mapping r) = (2 ^ Rule.n r)%nat ∧
  (∀ key v, Rule.mapping r !! key = Some v → is_bit v).
Proof.
  intros Hc. destruct (constructed_inv r Hc) as (Hodd & Hr & Hm).
  destruct (get_mapping_spec _ _ Hr) as (vs & m & Hvs & Hlv & Hbv & _ & Hm' & Hin & Hdom).
  rewrite Hm in Hm'. injection Hm' as <-.
  split; [intros key; by apply mapping_lookup_is_Some|]. split.
  - set (key_of := λ i : Z,
           match binary i (Rule.n r) with Ok key => key | Raise _ => [] end).
    assert (∀ i, 0 ≤ i < 2 ^ Z.of_nat (Rule.n r) →
                 binary i (Rule.n r) = Ok (key_of i) ∧ bits_value (key_of i) = i)
      as Hkey.
    { intros i Hi. destruct (binary_some _ _ Hi) as (l & Hl & _ & Hv & _).
      unfold key_of. by rewrite Hl. }
    set (keys := key_of <$> seqZ 0 (2 ^ Z.of_nat (Rule.n r))).
    assert (NoDup keys) as Hnd.
    { apply NoDup_fmap_2_strong; [|apply NoDup_seqZ].
      intros i j Hi%elem_of_seqZ Hj%elem_of_seqZ Heq.
      destruct (Hkey i) as [_ <-]; [lia|]. destruct (Hkey j) as [_ <-]; [lia|].
      by rewrite Heq. }
    assert (dom (Rule.mapping r) = list_to_set keys :> gset (list Z)) as Hd.
    { apply set_eq. intros key.
      rewrite elem_of_dom, elem_of_list_to_set. unfold keys.
      rewrite list_elem_of_fmap. split.
      - intros [v (i & Hi & Hk & _)%Hdom]. exists i. split.
        + destruct (Hkey i Hi) as [Hk' _]. rewrite Hk in Hk'. by injection Hk'.
        + apply elem_of_seqZ. lia.
      - intros (i & -> & Hi%elem_of_seqZ).
        destruct (Hkey i) as [Hk _]; [lia|].
        destruct (lookup_lt_is_Some_2 vs (Z.to_nat i)) as [v Hv].
        { rewrite Hlv. apply Nat2Z.inj_lt. rewrite Nat2Z.inj_pow, Z2Nat.id; simpl; lia. }
        exists v. rewrite (Hin i _ ltac:(lia) Hk). done. }
    rewrite <- size_dom, Hd, size_list_to_set by done.
    unfold keys. rewrite length_fmap, length_seqZ.
    apply Nat2Z.inj. rewrite Nat2Z.inj_pow, Z2Nat.id; simpl; lia.
  - intros key v (i & Hi & _ & Hv)%Hdom.
    eapply Forall_lookup_1; [exact Hbv|exact Hv].
Qed.

Lemma mapping_domain_witness :
  size (Rule.mapping rule_90) = (2 ^ Rule.n rule_90)%nat.
Proof.
  apply (mapping_domain rule_90). exact rule_90_constructed.
Defined.

(** X5: on a tuple of the right length that holds a value other than 0 and 1,
    [get_next_cell] passes its assertion and fails on the dictionary lookup. *)
Theorem get_next_cell_key_error (r : Rule.t) (interval_cells : list Z) :
  constructed r → length interval_cells = Rule.n r →
  ¬ Forall is_bit interval_cells →
  Rule.get_next_cell r interval_cells = Raise KeyError.
Proof.
  intros Hc Hlen Hnb. unfold Rule.get_next_cell.
  rewrite Hlen, Nat.eqb_refl. cbn [negb].
  destruct (Rule.mapping r !! interval_cells) as [v|] eqn:Hl; [|done].
  exfalso. apply Hnb. apply (mapping_lookup_is_Some r interval_cells Hc). by exists v.
Qed.

Lemma get_next_cell_key_error_witness :
  Rule.get_next_cell rule_90 [2; 0; 0] = Raise KeyError.
Proof.
  apply get_next_cell_key_error.
  - exact rule_90_constructed.
  - reflexivity.
  - intros H. inversion H as [|x l Hx Hl]. destruct Hx; discriminate.
Defined.

(** X6: the table determines the rule number: two constructed rules of the
    same width with the same table have the same number. *)
Theorem number_of_mapping (r1 r2 : Rule.t) :
  constructed r1 → constructed r2 →
  Rule.n r1 = Rule.n r2 → Rule.mapping r1 = Rule.mapping r2 →
  Rule.number r1 = Rule.number r2.
Proof.
  intros H1 H2 Hn Hm.
  destruct (constructed_inv r1 H1) as (_ & Hr1 & Hm1).
  destruct (constructed_inv r2 H2) as (_ & Hr2 & Hm2).
  destruct (get_mapping_spec _ _ Hr1) as (vs1 & m1 & _ & Hl1 & _ & Hv1 & Hm1' & Hin1 & _).
  destruct (get_mapping_spec _ _ Hr2) as (vs2 & m2 & _ & Hl2 & _ & Hv2 & Hm2' & Hin2 & _).
  rewrite Hm1 in Hm1'. injection Hm1' as <-.
  rewrite Hm2 in Hm2'. injection Hm2' as <-.
  rewrite <- Hv1, <- Hv2. f_equal. rewrite <- Hn in *.
  apply list_eq. intros k.
  destruct (decide (k < 2 ^ Rule.n r1)%nat) as [Hk|Hk].
  - assert (0 ≤ Z.of_nat k < 2 ^ Z.of_nat (Rule.n r1)) as Hi.
    { pose proof (Nat2Z.inj_pow 2 (Rule.n r1)) as E.
      change (Z.of_nat 2) with 2 in E. lia. }
    destruct (binary_some _ _ Hi) as (key & Hkey & _).
    pose proof (Hin1 _ _ Hi Hkey) as E1. pose proof (Hin2 _ _ Hi Hkey) as E2.
    rewrite Nat2Z.id in E1, E2. by rewrite <- E1, <- E2, Hm.
  - rewrite !lookup_ge_None_2; [done|lia|lia].
Qed.

Lemma number_of_mapping_witness : Rule.number rule_90 = Rule.number rule_90.
Proof.
  apply number_of_mapping; first [exact rule_90_constructed | reflexivity].
Defined.

(** ** Seeding at the edges *)

(** X7: [init_single] resets the cells before it looks at [pos].  On an
    automaton of size 0 or less, [init_single()] fails with [IndexError] on
    the empty list; with an integer position out of range the assertion
    fails after the cells have been set to zeros; with a position that is
    neither [None] nor an integer the call returns with all cells zero. *)
Theorem init_single_edges (self : CA.t) :
  let zeros := CA.with_cells self (replicate (Z.to_nat (CA.size self)) 0) in
  (CA.size self ≤ 0 →
   CA.init_single self CA.PosNone = (CA.with_cells self [], Raise IndexError)) ∧
  (∀ p, p < 0 ∨ CA.size self ≤ p →
     CA.init_single self (CA.PosInt p) = (zeros, Raise AssertionError)) ∧
  CA.init_single self CA.PosOther = (zeros, Ok tt).
Proof.
  intros zeros. split; [|split; [|done]].
  - intros Hs. unfold CA.init_single.
    cbn [CA.with_cells CA.cells CA.size CA._size]. fold (CA.size self).
    replace (Z.to_nat (CA.size self)) with 0%nat by lia. simpl replicate.
    unfold setitem, list_index. simpl length.
    assert (CA.size self `div` 2 ≤ 0) as Hd by (apply Z.div_le_upper_bound; lia).
    change (Z.of_nat 0) with 0.
    replace ((0 <=? CA.size self `div` 2) && (CA.size self `div` 2 <? 0))
      with false by (symmetry; apply andb_false_iff; lia).
    replace ((- 0 <=? CA.size self `div` 2) && (CA.size self `div` 2 <? 0))
      with false by (symmetry; apply andb_false_iff; lia).
    done.
  - intros p Hp. unfold CA.init_single.
    cbn [CA.with_cells CA.cells CA.size CA._size]. fold (CA.size self).
    replace ((0 <=? p) && (p <? CA.size self)) with false
      by (symmetry; apply andb_false_iff; lia).
    done.
Qed.

Lemma init_single_edges_witness :
  CA.init_single (CA.__init__ 0) CA.PosNone
    = (CA.with_cells (CA.__init__ 0) [], Raise IndexError) ∧
  CA.init_single ring_5 (CA.PosInt (-1))
    = (CA.with_cells ring_5 (replicate (Z.to_nat (CA.size ring_5)) 0),
       Raise AssertionError).
Proof.
  split.
  - apply (proj1 (init_single_edges (CA.__init__ 0))). reflexivity.
  - apply (proj1 (proj2 (init_single_edges ring_5))). lia.
Defined.

(** ** A generation step on cells that are not binary *)

Lemma for_in_raise {A B} (body : list B → A → result (list B)) (e : exn)
    (xs : list A) (acc : list B) :
  (∀ x, x ∈ xs → (∃ y, ∀ acc, body acc x = Ok (acc ++ [y])) ∨
                 (∀ acc, body acc x = Raise e)) →
  (∃ x, x ∈ xs ∧ ∀ acc, body acc x = Raise e) →
  for_in body xs acc = Raise e.
Proof.
  revert acc. induction xs as [|x xs IH]; intros acc Hall (x0 & Hx0 & Hraise).
  - by apply elem_of_nil in Hx0.
  - simpl. destruct (Hall x) as [[y Hy]|Hr]; [left| |by rewrite Hr].
    rewrite Hy. simpl. apply IH.
    + intros x' Hx'. apply Hall. by right.
    + apply elem_of_cons in Hx0 as [->|Hx0]; [|by exists x0].
      specialize (Hy acc). by rewrite Hraise in Hy.
Qed.

Lemma not_all_bits (l : list Z) :
  ¬ Forall is_bit l → ∃ (j : nat) (x : Z), l !! j = Some x ∧ ¬ is_bit x.
Proof.
  induction l as [|a l IH]; intros H; [by destruct H|].
  destruct (decide (a = 0 ∨ a = 1)) as [Ha|Ha].
  - destruct IH as (j & x & Hj & Hx); [intros Hl; apply H; by constructor|].
    by exists (S j), x.
  - by exists 0%nat, a.
Qed.

(** X8: if the automaton has [size] cells and one of them is neither 0 nor 1,
    [next_generation] with a constructed rule fails with [KeyError], and the
    cells are left as they were. *)
Theorem next_generation_key_error (self : CA.t) (rule : Rule.t) :
  constructed rule →
  Z.of_nat (length (CA.cells self)) = CA.size self →
  ¬ Forall is_bit (CA.cells self) →
  CA.next_generation self rule = (self, Raise KeyError).
Proof.
  intros Hrule Hlen Hnb.
  destruct (constructed_inv rule Hrule) as (Hodd%odd_width & _ & _).
  set (margin := Z.of_nat (Rule.n rule) `div` 2) in *.
  assert (0 ≤ margin) as Hm by (apply Z.div_pos; lia).
  destruct (not_all_bits _ Hnb) as (j & x & Hj & Hx).
  pose proof (lookup_lt_Some _ _ _ Hj) as Hjlt.
  unfold CA.next_generation, CA.next_cells. fold margin.
  rewrite (for_in_raise _ KeyError); [done| |].
  - intros i Hi%elem_of_seqZ.
    destruct (interval_cells_spec self Hlen margin i) as (t & Ht & Hlt & _); [lia..|].
    destruct (Rule.mapping rule !! t) as [y|] eqn:Hy.
    + left. exists y. intros acc. rewrite Ht. simpl. unfold Rule.get_next_cell.
      replace (length t =? Rule.n rule)%nat with true
        by (symmetry; apply Nat.eqb_eq; lia).
      simpl. by rewrite Hy.
    + right. intros acc. rewrite Ht. simpl. unfold Rule.get_next_cell.
      replace (length t =? Rule.n rule)%nat with true
        by (symmetry; apply Nat.eqb_eq; lia).
      simpl. by rewrite Hy.
  - exists (Z.of_nat j). split; [apply elem_of_seqZ; lia|].
    destruct (interval_cells_spec self Hlen margin (Z.of_nat j))
      as (t & Ht & Hlt & Hd & _); [lia..|].
    assert (t !! Z.to_nat margin = Some x) as Hmid.
    { rewrite Hd by lia. rewrite Z2Nat.id by done.
      replace (Z.of_nat j - margin + margin) with (Z.of_nat j) by lia.
      rewrite Z.mod_small by lia. by rewrite Nat2Z.id. }
    intros acc. rewrite Ht. simpl. unfold Rule.get_next_cell.
    replace (length t =? Rule.n rule)%nat with true
      by (symmetry; apply Nat.eqb_eq; lia).
    simpl. destruct (Rule.mapping rule !! t) as [y|] eqn:Hy; [|done].
    exfalso. apply Hx.
    destruct (proj1 (mapping_lookup_is_Some rule t Hrule)) as [_ Hb]; [by exists y|].
    by eapply Forall_lookup_1.
Qed.

Lemma next_generation_key_error_witness :
  CA.next_generation {| CA._size := 3; CA.cells := [0; 2; 0] |} rule_90
    = ({| CA._size := 3; CA.cells := [0; 2; 0] |}, Raise KeyError).
Proof.
  apply next_generation_key_error.
  - exact rule_90_constructed.
  - reflexivity.
  - intros H. inversion H as [|x l _ Hl]. inversion Hl as [|y l' Hy _].
    destruct Hy; discriminate.
Defined.

(** ** Symmetries of a generation step *)

(** X9: a generation step commutes with rotating the ring: stepping the cells
    rotated by [k] positions gives the rotation by [k] of the stepped cells. *)
Theorem next_generation_rotate (self : CA.t) (rule : Rule.t) (k : nat) :
  constructed rule → cells_ok self →
  ∃ new,
    CA.next_generation self rule = (CA.with_cells self new, Ok tt) ∧
    CA.next_generation (CA.with_cells self (rotate k (CA.cells self))) rule
      = (CA.with_cells self (rotate k new), Ok tt).
Proof.
  intros Hrule Hok.
  set (self' := CA.with_cells self (rotate k (CA.cells self))).
  assert (cells_ok self') as Hok'.
  { destruct Hok as [Hl Hb]. split; simpl.
    - by rewrite length_rotate.
    - apply Forall_forall. intros x Hx%elem_of_rotate. by eapply Forall_forall in Hb. }
  destruct (next_generation_spec self rule Hrule Hok) as (new & Hstep & Hlen & Hnew).
  destruct (next_generation_spec self' rule Hrule Hok') as (new' & Hstep' & Hlen' & Hnew').
  destruct Hok as [Hl Hb].
  exists new. split; [done|]. rewrite Hstep'.
  unfold CA.with_cells. simpl. do 2 f_equal.
  simpl in Hlen', Hnew'. rewrite length_rotate in Hlen', Hnew'.
  change (CA.size self') with (CA.size self) in Hnew'.
  change (CA._size self) with (CA.size self) in Hnew'.
  apply list_eq. intros i.
  destruct (decide (i < length (CA.cells self))%nat) as [Hi|Hi].
  2: { rewrite !lookup_ge_None_2; [done|rewrite length_rotate; lia|lia]. }
  assert (0 < CA.size self) as Hs by lia.
  destruct (Hnew' i Hi) as (t' & y' & Hy' & Hm' & _ & Hlt' & _ & Hd').
  rewrite lookup_rotate_r by lia.
  set (i2 := rotate_nat_add k i (length new)).
  assert (Z.of_nat i2 = (Z.of_nat k + Z.of_nat i) `mod` CA.size self) as Hi2.
  { unfold i2, rotate_nat_add. rewrite Hlen, Hl.
    pose proof (Z.mod_pos_bound (Z.of_nat k + Z.of_nat i) (CA.size self) Hs). lia. }
  assert (i2 < length (CA.cells self))%nat as Hi2lt.
  { pose proof (Z.mod_pos_bound (Z.of_nat k + Z.of_nat i) (CA.size self) Hs). lia. }
  destruct (Hnew i2 Hi2lt) as (t & y & Hy & Hm & _ & Hlt & _ & Hd).
  rewrite Hy', Hy.
  assert (t' = t) as ->; [|congruence].
  apply list_eq. intros d.
  destruct (decide (d < Rule.n rule)%nat) as [Hdn|Hdn].
  2: { rewrite !lookup_ge_None_2; [done|lia|lia]. }
  rewrite Hd', Hd by done.
  set (m := Z.of_nat (Rule.n rule) `div` 2).
  pose proof (Z.mod_pos_bound (Z.of_nat i - m + Z.of_nat d) (CA.size self) Hs) as Hb1.
  rewrite lookup_rotate_r by lia. f_equal.
  unfold rotate_nat_add. f_equal.
  rewrite Z2Nat.id, Hl, Hi2 by lia.
  rewrite Zplus_mod_idemp_r.
  replace ((Z.of_nat k + Z.of_nat i) `mod` CA.size self - m + Z.of_nat d)
    with ((Z.of_nat k + Z.of_nat i) `mod` CA.size self + (Z.of_nat d - m)) by lia.
  rewrite Zplus_mod_idemp_l. f_equal. lia.
Qed.

Lemma next_generation_rotate_witness :
  ∃ new,
    CA.next_generation ring_5 rule_90 = (CA.with_cells ring_5 new, Ok tt) ∧
    CA.next_generation (CA.with_cells ring_5 (rotate 2 (CA.cells ring_5))) rule_90
      = (CA.with_cells ring_5 (rotate 2 new), Ok tt).
Proof.
  apply next_generation_rotate; [exact rule_90_constructed|exact ring_5_ok].
Defined.

(** X10: a ring whose cells all hold the same binary value [b] steps to a
    ring whose cells all hold the table entry of the tuple [(b, ..., b)]. *)
Theorem uniform_ring (self : CA.t) (rule : Rule.t) (b : Z) :
  constructed rule → is_bit b →
  CA.cells self = replicate (Z.to_nat (CA.size self)) b →
  ∃ v, Rule.mapping rule !! replicate (Rule.n rule) b = Some v ∧ is_bit v ∧
       CA.next_generation self rule
         = (CA.with_cells self (replicate (Z.to_nat (CA.size self)) v), Ok tt).
Proof.
  intros Hrule Hb Hcells.
  destruct (mapping_total rule (replicate (Rule.n rule) b) Hrule)
    as (_ & v & _ & _ & _ & Hv & Hbv).
  { apply length_replicate. }
  { by apply Forall_replicate. }
  exists v. split; [done|]. split; [done|].
  destruct (decide (0 < CA.size self)) as [Hs|Hs].
  - assert (cells_ok self) as Hok.
    { split; rewrite Hcells; [rewrite length_replicate; lia|by apply Forall_replicate]. }
    destruct (next_generation_spec self rule Hrule Hok) as (new & -> & Hlen & Hnew).
    do 2 f_equal.
    rewrite Hcells in Hlen. rewrite length_replicate in Hlen.
    symmetry. apply replicate_as_Forall. split; [done|].
    apply Forall_lookup_2. intros i y Hy.
    destruct (Hnew i) as (t & y' & Hy' & Hm & _ & Hlt & Hin & _).
    { rewrite Hcells, length_replicate, <- Hlen. by eapply lookup_lt_Some. }
    rewrite Hy in Hy'. injection Hy' as <-.
    assert (t = replicate (Rule.n rule) b) as ->.
    { symmetry. apply replicate_as_Forall. split; [done|].
      apply Forall_forall. intros x Hx%Hin. rewrite Hcells in Hx.
      symmetry. by eapply elem_of_replicate_inv. }
    rewrite Hv in Hm. by injection Hm.
  - unfold CA.next_generation, CA.next_cells, range.
    rewrite seqZ_nil by lia. simpl.
    by replace (Z.to_nat (CA.size self)) with 0%nat by lia.
Qed.

Lemma uniform_ring_witness :
  ∃ v, Rule.mapping rule_90 !! replicate (Rule.n rule_90) 1 = Some v ∧ is_bit v ∧
       CA.next_generation {| CA._size := 4; CA.cells := [1; 1; 1; 1] |} rule_90
         = ({| CA._size := 4; CA.cells := replicate (Z.to_nat 4) v |}, Ok tt).
Proof.
  apply (uniform_ring {| CA._size := 4; CA.cells := [1; 1; 1; 1] |} rule_90 1).
  - exact rule_90_constructed.
  - by right.
  - reflexivity.
Defined.

(** ** The printed line *)

Lemma concat_singletons {A B} (h : A → B) (l : list A) :
  concat ((λ x, [h x]) <$> l) = h <$> l.
Proof. induction l as [|x l IH]; [done|]. simpl. f_equal. exact IH. Qed.

Lemma tuple_for_raise {A B} (f : A → result B) (e : exn) (xs : list A) :
  (∀ x, x ∈ xs → (∃ y, f x = Ok y) ∨ f x = Raise e) →
  (∃ x, x ∈ xs ∧ f x = Raise e) →
  tuple_for f xs = Raise e.
Proof.
  induction xs as [|x xs IH]; intros Hall (x0 & Hx0 & Hraise).
  - by apply elem_of_nil in Hx0.
  - simpl. destruct (Hall x) as [[y Hy]|Hr]; [left| |by rewrite Hr].
    rewrite Hy. simpl. rewrite IH; [done| |].
    + intros x' Hx'. apply Hall. by right.
    + apply elem_of_cons in Hx0 as [->|Hx0]; [congruence|by exists x0].
Qed.

Lemma str_glyphs (self : CA.t) :
  Forall is_bit (CA.cells self) → CA.__str__ self = Ok (glyph <$> CA.cells self).
Proof.
  intros Hb. unfold CA.__str__.
  rewrite (tuple_for_fmap _ (λ cell, [glyph cell])).
  - exact (f_equal Ok (concat_singletons glyph (CA.cells self))).
  - intros x Hx. eapply Forall_forall in Hb; [|exact Hx]. by destruct Hb as [->| ->].
Qed.

Lemma str_raises (self : CA.t) :
  ¬ Forall is_bit (CA.cells self) → CA.__str__ self = Raise KeyError.
Proof.
  intros (j & x & Hj & Hx)%not_all_bits. unfold CA.__str__.
  rewrite (tuple_for_raise _ KeyError); [done| |].
  - intros c _. destruct (CA.SYMBOLS !! c); [left; by eexists|by right].
  - exists x. split; [by eapply list_elem_of_lookup_2|].
    unfold CA.SYMBOLS. rewrite !lookup_insert_ne, lookup_empty; [done|..];
      intros <-; apply Hx; [by right|by left].
Qed.

Lemma glyphs_inj (l1 l2 : list Z) :
  Forall is_bit l1 → Forall is_bit l2 → glyph <$> l1 = glyph <$> l2 → l1 = l2.
Proof.
  intros H1. revert l2. induction H1 as [|a l1 Ha H1 IH]; intros [|b l2] H2 Heq;
    simpl in Heq; try done.
  apply Forall_cons in H2 as [Hb H2]. injection Heq as Hab Heq.
  f_equal; [|by apply IH].
  destruct Ha as [->| ->], Hb as [->| ->]; done.
Qed.

(** X11: for binary cells [__str__] returns one character per cell, in
    order, a space for 0 and ["#"] for 1, so that two automata with binary
    cells print the same line only if their cells are the same; if a cell is
    neither 0 nor 1 it fails with [KeyError]. *)
Theorem str_line (self : CA.t) :
  (Forall is_bit (CA.cells self) →
   CA.__str__ self = Ok (glyph <$> CA.cells self) ∧
   ∀ other, Forall is_bit (CA.cells other) →
     CA.__str__ other = CA.__str__ self → CA.cells other = CA.cells self) ∧
  (¬ Forall is_bit (CA.cells self) → CA.__str__ self = Raise KeyError).
Proof.
  split; [|apply str_raises].
  intros Hb. split; [by apply str_glyphs|].
  intros other Hbo. rewrite (str_glyphs self Hb), (str_glyphs other Hbo).
  intros [= Heq]. by apply glyphs_inj.
Qed.

Lemma str_line_witness :
  (CA.__str__ ring_5 = Ok (glyph <$> CA.cells ring_5) ∧
   ∀ other, Forall is_bit (CA.cells other) →
     CA.__str__ other = CA.__str__ ring_5 → CA.cells other = CA.cells ring_5) ∧
  CA.__str__ {| CA._size := 2; CA.cells := [0; 7] |} = Raise KeyError.
Proof.
  split.
  - apply (proj1 (str_line ring_5)). exact (proj2 ring_5_ok).
  - apply (proj2 (str_line {| CA._size := 2; CA.cells := [0; 7] |})).
    intros H. inversion H as [|x l _ Hl]. inversion Hl as [|y l' Hy _].
    destruct Hy; discriminate.
Defined.

(** ** The printing loop *)

Lemma generations_ok (rule : Rule.t) (g : nat) (self : CA.t) :
  constructed rule → cells_ok self → cells_ok (generations rule g self).
Proof.
  intros Hrule. revert self. induction g as [|g IH]; intros self Hok; [done|].
  simpl. apply IH. by apply advance_ok.
Qed.

Lemma generations_succ (rule : Rule.t) (g : nat) (self : CA.t) :
  generations rule (S g) self = advance rule (generations rule g self).
Proof. revert self. induction g as [|g IH]; intros self; [done|]. simpl in *. by rewrite IH. Qed.

Lemma emitted_lookup (rule : Rule.t) (k g : nat) (self : CA.t) :
  (g < k)%nat → emitted rule k self !! g = Some (render (generations rule g self)).
Proof.
  revert g self. induction k as [|k IH]; intros g self Hg; [lia|].
  destruct g as [|g]; [done|]. simpl. apply IH. lia.
Qed.

Lemma run_loop_looping (rule : Rule.t) (limit : Z) (fuel : nat)
    (self : CA.t) (out : list str) (iteration : Z) :
  constructed rule → cells_ok self →
  limit ≤ 0 ∨ iteration + Z.of_nat fuel ≤ limit →
  CA.run_loop fuel rule limit self out iteration =
    CA.Looping (generations rule fuel self) (out ++ emitted rule fuel self)
               (iteration + Z.of_nat fuel).
Proof.
  intros Hrule. revert self out iteration.
  induction fuel as [|fuel IH]; intros self out iteration Hok Hl.
  - simpl. rewrite app_nil_r. f_equal. lia.
  - rewrite run_loop_step by done.
    replace ((iteration + 1 >? limit) && (limit >? 0)) with false
      by (symmetry; apply andb_false_iff; lia).
    rewrite IH; [|by apply advance_ok|lia].
    simpl. rewrite <- app_assoc. f_equal. lia.
Qed.

(** X12: on a well-formed automaton with a constructed rule and a positive
    limit [L], [run] is still looping after each of its first [L]
    iterations and returns during iteration [L + 1]: it has then printed
    [L + 1] lines, line [g] showing the cells after [g] generation steps
    (the first line shows the initial cells), and the automaton is left
    [L + 1] steps after its initial state. *)
Theorem run_returns (self : CA.t) (rule : Rule.t) (limit : Z) :
  constructed rule → cells_ok self → 0 < limit →
  (∀ fuel, (fuel ≤ Z.to_nat limit)%nat →
     ∃ out, CA.run fuel self rule (Some limit) =
              CA.Looping (generations rule fuel self) out (Z.of_nat fuel)) ∧
  ∃ out,
    (∀ extra, CA.run (S (Z.to_nat limit) + extra) self rule (Some limit) =
       CA.Returned (generations rule (S (Z.to_nat limit)) self) out (limit + 1)) ∧
    Z.of_nat (length out) = limit + 1 ∧
    ∀ g : nat, Z.of_nat g ≤ limit →
      CA.__str__ (generations rule g self) = Ok (glyph <$> CA.cells (generations rule g self)) ∧
      out !! g = Some (glyph <$> CA.cells (generations rule g self)).
Proof.
  intros Hrule Hok Hl. split.
  - intros fuel Hf. eexists. unfold CA.run.
    rewrite run_loop_looping; [done..|]. right. lia.
  - exists (emitted rule (S (Z.to_nat limit)) self). split; [|split].
    + intros extra. by apply run_positive_limit.
    + rewrite emitted_length. lia.
    + intros g Hg.
      pose proof (generations_ok rule g self Hrule Hok) as [_ Hb].
      pose proof (str_glyphs _ Hb) as Hstr. split; [done|].
      rewrite emitted_lookup by lia. unfold render. by rewrite Hstr.
Qed.

Lemma run_returns_witness :
  ∃ out,
    (∀ extra, CA.run (S (Z.to_nat 2) + extra) ring_5 rule_90 (Some 2) =
       CA.Returned (generations rule_90 (S (Z.to_nat 2)) ring_5) out (2 + 1)) ∧
    Z.of_nat (length out) = 2 + 1 ∧
    ∀ g : nat, Z.of_nat g ≤ 2 →
      CA.__str__ (generations rule_90 g ring_5)
        = Ok (glyph <$> CA.cells (generations rule_90 g ring_5)) ∧
      out !! g = Some (glyph <$> CA.cells (generations rule_90 g ring_5)).
Proof.
  apply (run_returns ring_5 rule_90 2);
    [exact rule_90_constructed|exact ring_5_ok|lia].
Defined.

(** X13: with a limit that is zero or negative, [run] never returns: after
    any number of iterations it is still looping, having printed one line and
    made one generation step per iteration. *)
Theorem run_never_returns (self : CA.t) (rule : Rule.t) (limit : Z) (fuel : nat) :
  constructed rule → cells_ok self → limit ≤ 0 →
  ∃ out, CA.run fuel self rule (Some limit) =
           CA.Looping (generations rule fuel self) out (Z.of_nat fuel) ∧
         length out = fuel.
Proof.
  intros Hrule Hok Hl. exists (emitted rule fuel self).
  split; [by apply run_nonpositive_limit|apply emitted_length].
Qed.

Lemma run_never_returns_witness :
  ∃ out, CA.run 7 ring_5 rule_90 (Some 0) =
           CA.Looping (generations rule_90 7 ring_5) out (Z.of_nat 7) ∧
         length out = 7%nat.
Proof.
  apply run_never_returns; [exact rule_90_constructed|exact ring_5_ok|lia].
Defined.

(** X14: without a limit, [run] takes [size // 2].  For a size of at least 2
    it returns during iteration [size // 2 + 1]; for a size of 0 or 1 the
    limit is 0 and it never returns. *)
Theorem run_default (self : CA.t) (rule : Rule.t) :
  constructed rule → cells_ok self →
  (2 ≤ CA.size self →
   ∃ out, ∀ extra,
     CA.run (S (Z.to_nat (CA.size self `div` 2)) + extra) self rule None =
       CA.Returned (generations rule (S (Z.to_nat (CA.size self `div` 2))) self) out
                   (CA.size self `div` 2 + 1)) ∧
  (CA.size self ≤ 1 →
   ∀ fuel, ∃ out, CA.run fuel self rule None =
                    CA.Looping (generations rule fuel self) out (Z.of_nat fuel)).
Proof.
  intros Hrule Hok. split.
  - intros Hs. eexists. intros extra. rewrite run_default_limit.
    apply run_positive_limit; [done..|].
    apply Z.div_str_pos. lia.
  - intros Hs fuel. eexists. rewrite run_default_limit.
    apply run_nonpositive_limit; [done..|].
    destruct Hok as [Hl _].
    assert (CA.size self `div` 2 < 1); [|lia].
    apply Z.div_lt_upper_bound; lia.
Qed.

Lemma run_default_witness :
  (∃ out, ∀ extra,
     CA.run (S (Z.to_nat (CA.size ring_5 `div` 2)) + extra) ring_5 rule_90 None =
       CA.Returned (generations rule_90 (S (Z.to_nat (CA.size ring_5 `div` 2))) ring_5) out
                   (CA.size ring_5 `div` 2 + 1)) ∧
  ∀ fuel, ∃ out, CA.run fuel (CA.__init__ 1) rule_90 None =
                   CA.Looping (generations rule_90 fuel (CA.__init__ 1)) out (Z.of_nat fuel).
Proof.
  split.
  - apply (proj1 (run_default ring_5 rule_90 rule_90_constructed ring_5_ok)).
    simpl. lia.
  - apply (proj2 (run_default (CA.__init__ 1) rule_90 rule_90_constructed
                    ltac:(split; [reflexivity|repeat constructor; by left]))).
    simpl. lia.
Defined.

(** X15: if a cell is neither 0 nor 1 when [run] is called, the first
    [print] fails with [KeyError]: nothing has been printed and no generation
    step has been made. *)
Theorem run_key_error (self : CA.t) (rule : Rule.t) (limit : option Z) (fuel : nat) :
  ¬ Forall is_bit (CA.cells self) →
  CA.run (S fuel) self rule limit = CA.Raised self [] KeyError.
Proof.
  intros Hnb. unfold CA.run. simpl. by rewrite (str_raises self Hnb).
Qed.

Lemma run_key_error_witness :
  CA.run 1 {| CA._size := 2; CA.cells := [0; 7] |} rule_90 None
    = CA.Raised {| CA._size := 2; CA.cells := [0; 7] |} [] KeyError.
Proof.
  apply run_key_error.
  intros H. inversion H as [|x l _ Hl]. inversion Hl as [|y l' Hy _].
  destruct Hy; discriminate.
Defined.

(** ** Rules 60 and 90, and the triangle they draw *)

Lemma rule_60_constructed : constructed rule_60.
Proof. exists 0, (Some 60), 3%nat. vm_compute. reflexivity. Qed.

Lemma rule_60_xor (a b c : Z) :
  is_bit a → is_bit b → is_bit c →
  Rule.mapping rule_60 !! [a; b; c] = Some (Z.lxor a b).
Proof. intros [->| ->] [->| ->] [->| ->]; vm_compute; reflexivity. Qed.

Lemma rule_90_xor (a b c : Z) :
  is_bit a → is_bit b → is_bit c →
  Rule.mapping rule_90 !! [a; b; c] = Some (Z.lxor a c).
Proof. intros [->| ->] [->| ->] [->| ->]; vm_compute; reflexivity. Qed.

(** A step with a rule of width 3 reads, for each position, its left
    neighbour, itself and its right neighbour on the ring. *)
Lemma step_width_3 (self : CA.t) (rule : Rule.t) :
  constructed rule → Rule.n rule = 3%nat → cells_ok self →
  ∃ new,
    CA.next_generation self rule = (CA.with_cells self new, Ok tt) ∧
    length new = length (CA.cells self) ∧
    ∀ i, 0 ≤ i < CA.size self →
      ∃ a b c,
        CA.cells self !! Z.to_nat ((i - 1) `mod` CA.size self) = Some a ∧
        CA.cells self !! Z.to_nat i = Some b ∧
        CA.cells self !! Z.to_nat ((i + 1) `mod` CA.size self) = Some c ∧
        is_bit a ∧ is_bit b ∧ is_bit c ∧
        new !! Z.to_nat i = Rule.mapping rule !! [a; b; c].
Proof.
  intros Hrule Hn3 Hok.
  destruct (next_generation_spec self rule Hrule Hok) as (new & Hstep & Hlen & Hnew).
  destruct Hok as [Hl Hb].
  exists new. split; [done|]. split; [done|].
  intros i Hi.
  destruct (Hnew (Z.to_nat i)) as (t & y & Hy & Hm & _ & Hlt & Hin & Hd); [lia|].
  rewrite Hn3 in Hlt, Hd. change (Z.of_nat 3 `div` 2) with 1 in Hd.
  rewrite Z2Nat.id in Hd by lia.
  destruct t as [|a [|b [|c [|]]]]; try done.
  pose proof (Hd 0%nat ltac:(lia)) as H0.
  pose proof (Hd 1%nat ltac:(lia)) as H1.
  pose proof (Hd 2%nat ltac:(lia)) as H2.
  simpl in H0, H1, H2.
  replace (i - 1 + Z.of_nat 0) with (i - 1) in H0 by lia.
  replace (i - 1 + Z.of_nat 1) with i in H1 by lia.
  replace (i - 1 + Z.of_nat 2) with (i + 1) in H2 by lia.
  rewrite Z.mod_small in H1 by lia.
  assert (∀ x, x ∈ [a; b; c] → is_bit x) as Hbits.
  { intros x Hx%Hin. by eapply Forall_forall in Hb. }
  exists a, b, c. repeat split; try done.
  - apply Hbits. left.
  - apply Hbits. right. left.
  - apply Hbits. right. right. left.
  - by rewrite Hy, Hm.
Qed.

Lemma step_xor (self : CA.t) (rule : Rule.t) (pick : Z → Z → Z → Z) :
  constructed rule → Rule.n rule = 3%nat →
  (∀ a b c, is_bit a → is_bit b → is_bit c →
     Rule.mapping rule !! [a; b; c] = Some (pick a b c)) →
  cells_ok self →
  ∃ new,
    CA.next_generation self rule = (CA.with_cells self new, Ok tt) ∧
    length new = length (CA.cells self) ∧
    ∀ i, 0 ≤ i < CA.size self →
      ∃ a b c,
        CA.cells self !! Z.to_nat ((i - 1) `mod` CA.size self) = Some a ∧
        CA.cells self !! Z.to_nat i = Some b ∧
        CA.cells self !! Z.to_nat ((i + 1) `mod` CA.size self) = Some c ∧
        new !! Z.to_nat i = Some (pick a b c).
Proof.
  intros Hrule Hn3 Hpick Hok.
  destruct (step_width_3 self rule Hrule Hn3 Hok) as (new & Hstep & Hlen & Hnew).
  exists new. split; [done|]. split; [done|].
  intros i Hi.
  destruct (Hnew i Hi) as (a & b & c & Ha & Hb & Hc & Hba & Hbb & Hbc & Hi').
  exists a, b, c. repeat split; try done. rewrite Hi'. by apply Hpick.
Qed.

(** X16: on every well-formed ring, rule 60 sets each cell to the exclusive
    or of its left neighbour and itself, and rule 90 sets it to the exclusive
    or of its left and right neighbours (neighbours taken around the ring). *)
Theorem xor_rules (self : CA.t) :
  cells_ok self →
  (∃ new,
     CA.next_generation self rule_60 = (CA.with_cells self new, Ok tt) ∧
     ∀ i, 0 ≤ i < CA.size self →
       ∃ a b,
         CA.cells self !! Z.to_nat ((i - 1) `mod` CA.size self) = Some a ∧
         CA.cells self !! Z.to_nat i = Some b ∧
         new !! Z.to_nat i = Some (Z.lxor a b)) ∧
  (∃ new,
     CA.next_generation self rule_90 = (CA.with_cells self new, Ok tt) ∧
     ∀ i, 0 ≤ i < CA.size self →
       ∃ a c,
         CA.cells self !! Z.to_nat ((i - 1) `mod` CA.size self) = Some a ∧
         CA.cells self !! Z.to_nat ((i + 1) `mod` CA.size self) = Some c ∧
         new !! Z.to_nat i = Some (Z.lxor a c)).
Proof.
  intros Hok. split.
  - destruct (step_xor self rule_60 (λ a b _, Z.lxor a b) rule_60_constructed
                eq_refl rule_60_xor Hok) as (new & Hstep & _ & Hnew).
    exists new. split; [done|]. intros i Hi.
    destruct (Hnew i Hi) as (a & b & c & Ha & Hb & _ & Hi'). by exists a, b.
  - destruct (step_xor self rule_90 (λ a _ c, Z.lxor a c) rule_90_constructed
                eq_refl rule_90_xor Hok) as (new & Hstep & _ & Hnew).
    exists new. split; [done|]. intros i Hi.
    destruct (Hnew i Hi) as (a & b & c & Ha & _ & Hc & Hi'). by exists a, c.
Qed.

Lemma xor_rules_witness :
  ∃ new,
    CA.next_generation ring_5 rule_60 = (CA.with_cells ring_5 new, Ok tt) ∧
    ∀ i, 0 ≤ i < CA.size ring_5 →
      ∃ a b,
        CA.cells ring_5 !! Z.to_nat ((i - 1) `mod` CA.size ring_5) = Some a ∧
        CA.cells ring_5 !! Z.to_nat i = Some b ∧
        new !! Z.to_nat i = Some (Z.lxor a b).
Proof.
  apply (proj1 (xor_rules ring_5 ring_5_ok)).
Defined.

Lemma pascal_beyond (g i : nat) : (g < i)%nat → pascal g i = 0%nat.
Proof.
  revert i. induction g as [|g IH]; intros [|i] H; simpl; try lia.
  rewrite !IH by lia. done.
Qed.

Lemma lxor_parity (p q : nat) :
  Z.lxor (Z.of_nat (p mod 2)) (Z.of_nat (q mod 2)) = Z.of_nat ((p + q) mod 2).
Proof.
  rewrite (Nat.Div0.add_mod p q 2).
  pose proof (Nat.mod_upper_bound p 2 ltac:(done)) as Hp.
  pose proof (Nat.mod_upper_bound q 2 ltac:(done)) as Hq.
  destruct (p mod 2)%nat as [|[|]], (q mod 2)%nat as [|[|]]; try lia; reflexivity.
Qed.

Lemma seeded_at_0_eq (size : Z) :
  0 < size →
  seeded_at_0 size
    = {| CA._size := size; CA.cells := <[0%nat := 1]> (replicate (Z.to_nat size) 0) |} ∧
  CA.init_single (CA.__init__ size) (CA.PosInt 0) = (seeded_at_0 size, Ok tt).
Proof.
  intros Hs. unfold seeded_at_0, CA.init_single, CA.__init__, CA.init_zeroes.
  cbn [CA.with_cells CA.cells CA.size CA._size].
  replace ((0 <=? 0) && (0 <? size)) with true by (symmetry; apply andb_true_iff; lia).
  cbn [negb]. rewrite setitem_in_range by (rewrite length_replicate; lia).
  done.
Qed.

Lemma seeded_at_0_ok (size : Z) : 0 < size → cells_ok (seeded_at_0 size).
Proof.
  intros Hs. rewrite (proj1 (seeded_at_0_eq size Hs)). split; simpl.
  - rewrite length_insert, length_replicate. unfold CA.size. simpl. lia.
  - apply Forall_insert; [apply Forall_replicate; by left|by right].
Qed.

Lemma generations_size (rule : Rule.t) (g : nat) (self : CA.t) :
  constructed rule → cells_ok self →
  CA.size (generations rule g self) = CA.size self.
Proof.
  intros Hrule. revert self. induction g as [|g IH]; intros self Hok; [done|].
  simpl. rewrite IH by (by apply advance_ok).
  destruct (next_generation_spec self rule Hrule Hok) as (new & Hstep & _).
  unfold advance. by rewrite Hstep.
Qed.

(** Rows of Pascal's triangle modulo 2, for any ring wide enough. *)
Lemma pascal_rows (size : Z) (g : nat) :
  Z.of_nat g < size →
  ∀ i : nat, Z.of_nat i < size →
    CA.cells (generations rule_60 g (seeded_at_0 size)) !! i
      = Some (Z.of_nat (pascal g i mod 2)).
Proof.
  induction g as [|g IH]; intros Hg i Hi.
  - rewrite (proj1 (seeded_at_0_eq size ltac:(lia))). simpl.
    pose proof (seed_lookup size 0 (Z.of_nat i) ltac:(lia) ltac:(lia)) as Hl.
    rewrite Nat2Z.id in Hl. change (Z.to_nat 0) with 0%nat in Hl. rewrite Hl.
    destruct i as [|i]; [done|]. by rewrite decide_False by lia.
  - specialize (IH ltac:(lia)).
    rewrite generations_succ.
    set (prev := generations rule_60 g (seeded_at_0 size)) in *.
    assert (cells_ok prev) as Hok.
    { apply generations_ok; [exact rule_60_constructed|apply seeded_at_0_ok; lia]. }
    assert (CA.size prev = size) as Hsize.
    { unfold prev. rewrite generations_size;
        [|exact rule_60_constructed|apply seeded_at_0_ok; lia].
      by rewrite (proj1 (seeded_at_0_eq size ltac:(lia))). }
    destruct (step_xor prev rule_60 (λ a b _, Z.lxor a b) rule_60_constructed
                eq_refl rule_60_xor Hok) as (new & Hstep & _ & Hnew).
    unfold advance. rewrite Hstep. cbn [fst CA.with_cells CA.cells].
    destruct (Hnew (Z.of_nat i)) as (a & b & c & Ha & Hb & _ & Hi'); [lia|].
    rewrite Nat2Z.id in Hb, Hi'. rewrite Hi'. rewrite Hsize in Ha.
    rewrite IH in Hb by done. injection Hb as <-.
    destruct i as [|i].
    + change (Z.of_nat 0 - 1) with (-1) in Ha.
      rewrite mod_minus_one, IH in Ha by lia. injection Ha as <-.
      rewrite (pascal_beyond g (Z.to_nat (size - 1))) by lia.
      by destruct g.
    + replace (Z.of_nat (S i) - 1) with (Z.of_nat i) in Ha by lia.
      rewrite Z.mod_small, Nat2Z.id, IH in Ha by lia. injection Ha as <-.
      f_equal. exact (lxor_parity (pascal g i) (pascal g (S i))).
Qed.

(** X17: started from a single 1 at position 0, a ring of [size] cells
    under rule 60 shows Pascal's triangle modulo 2 (the Sierpinski
    triangle): after [g < size] generation steps, cell [i] holds the parity
    of the binomial coefficient of [g] over [i]. *)
Theorem sierpinski (size : Z) (g i : nat) :
  Z.of_nat g < size → Z.of_nat i < size →
  CA.init_single (CA.__init__ size) (CA.PosInt 0) = (seeded_at_0 size, Ok tt) ∧
  CA.cells (generations rule_60 g (seeded_at_0 size)) !! i
    = Some (Z.of_nat (pascal g i mod 2)).
Proof.
  intros Hg Hi. split; [apply seeded_at_0_eq; lia|by apply pascal_rows].
Qed.

Lemma sierpinski_witness :
  CA.init_single (CA.__init__ 8) (CA.PosInt 0) = (seeded_at_0 8, Ok tt) ∧
  CA.cells (generations rule_60 5 (seeded_at_0 8)) !! 4%nat
    = Some (Z.of_nat (pascal 5 4 mod 2)).
Proof.
  apply (sierpinski 8 5 4); lia.
Defined.

(** ** The program *)

Lemma main_run (fuel : nat) :
  main fuel = Ok (CA.run fuel (seeded_at_0 255) rule_60 (Some 127)).
Proof.
  assert (Rule.__init__ 0 (Some 60) 3 = Ok rule_60) as Hinit
    by (vm_compute; reflexivity).
  unfold main. rewrite Hinit. cbn [mbind result_bind]. cbv zeta.
  rewrite (proj2 (seeded_at_0_eq 255 ltac:(lia))). reflexivity.
Qed.

(** X18: the program at the end of the file returns.  It leaves the loop of
    [run] during iteration 128, not before, having printed 128 lines of 255
    characters; in line [g], column [i] shows ["#"] when the binomial
    coefficient of [g] over [i] is odd and a space when it is even. *)
Theorem main_prints_triangle :
  ∃ final out,
    (∀ fuel, (fuel ≤ 127)%nat → ∃ self printed iteration,
       main fuel = Ok (CA.Looping self printed iteration)) ∧
    (∀ extra, main (128 + extra) = Ok (CA.Returned final out 128)) ∧
    length out = 128%nat ∧
    ∀ g i : nat, (g < 128)%nat → (i < 255)%nat →
      ∃ line, out !! g = Some line ∧ length line = 255%nat ∧
              line !! i = Some (glyph (Z.of_nat (pascal g i mod 2))).
Proof.
  pose proof (seeded_at_0_ok 255 ltac:(lia)) as Hok.
  exists (generations rule_60 128 (seeded_at_0 255)),
         (emitted rule_60 128 (seeded_at_0 255)).
  split; [|split; [|split]].
  - intros fuel Hf. rewrite main_run. unfold CA.run.
    rewrite (run_loop_looping rule_60 127 fuel _ [] 0 rule_60_constructed Hok);
      [by eexists _, _, _|lia].
  - intros extra. rewrite main_run. apply (f_equal Ok).
    exact (run_positive_limit (seeded_at_0 255) rule_60 127 extra
             rule_60_constructed Hok ltac:(lia)).
  - apply emitted_length.
  - intros g i Hg Hi.
    pose proof (generations_ok rule_60 g _ rule_60_constructed Hok) as [Hlen Hb].
    rewrite (generations_size rule_60 g _ rule_60_constructed Hok) in Hlen.
    assert (CA.size (seeded_at_0 255) = 255) as Hsize
      by (by rewrite (proj1 (seeded_at_0_eq 255 ltac:(lia)))).
    rewrite Hsize in Hlen.
    exists (glyph <$> CA.cells (generations rule_60 g (seeded_at_0 255))).
    split; [|split].
    + rewrite emitted_lookup by done. unfold render. by rewrite (str_glyphs _ Hb).
    + rewrite length_fmap. lia.
    + rewrite list_lookup_fmap, (pascal_rows 255 g ltac:(lia) i ltac:(lia)). done.
Qed.

(** ** The order of the table and the printed rule *)

Lemma dict_set_fresh (d : list (list Z * Z)) (key : list Z) (value : Z) :
  key ∉ d.*1 → dict_set d key value = d ++ [(key, value)].
Proof.
  induction d as [|[k v] d IH]; intros Hk; [done|]. simpl in *.
  apply not_elem_of_cons in Hk as [Hne Hk].
  rewrite decide_False by done. by rewrite IH.
Qed.

Lemma items_loop (n : nat) (ivs : list (Z * Z)) (d0 : list (list Z * Z)) :
  (∀ i v, (i, v) ∈ ivs → 0 ≤ i < 2 ^ Z.of_nat n) → NoDup ivs.*1 →
  (∀ i v key, (i, v) ∈ ivs → binary i n = Ok key → key ∉ d0.*1) →
  ∃ items,
    for_in (λ (mapping : list (list Z * Z)) '(i, value),
              key ← binary i n; Ok (dict_set mapping key value)) ivs d0
      = Ok (d0 ++ items) ∧
    Forall2 (λ iv kv, binary iv.1 n = Ok kv.1 ∧ kv.2 = iv.2) ivs items.
Proof.
  revert d0. induction ivs as [|[i0 v0] ivs IH]; intros d0 Hr Hnd Hfresh.
  - exists []. by rewrite app_nil_r.
  - apply NoDup_cons in Hnd as [Hi0 Hnd].
    destruct (binary_some i0 n) as (k0 & Hk0 & _ & Hv0 & _).
    { apply (Hr i0 v0). left. }
    destruct (IH (d0 ++ [(k0, v0)])) as (items & Hitems & HF); [|done| |].
    { intros i v H. apply (Hr i v). by right. }
    { intros i v key Hiv Hkey. rewrite fmap_app. apply not_elem_of_app. split.
      - apply (Hfresh i v); [by right|done].
      - simpl. apply not_elem_of_cons. split; [|apply not_elem_of_nil].
        intros ->. apply Hi0.
        destruct (binary_some i n) as (k & Hk' & _ & Hv & _); [by eapply binary_inv|].
        rewrite Hkey in Hk'. injection Hk' as <-. rewrite <- Hv0, Hv.
        by apply (list_elem_of_fmap_2 fst _ (i, v)). }
    exists ((k0, v0) :: items). split; [|by constructor].
    simpl. rewrite Hk0. simpl.
    rewrite dict_set_fresh by (apply (Hfresh i0 v0); [left|done]).
    rewrite Hitems. by rewrite <- app_assoc.
Qed.

Lemma join_empty (parts : list str) : join [] parts = concat parts.
Proof.
  induction parts as [|p [|q parts] IH]; [done|simpl; by rewrite app_nil_r|].
  change (join [] (p :: q :: parts)) with (p ++ [] ++ join [] (q :: parts)).
  by rewrite IH.
Qed.

Lemma digits_of_bits (key : list Z) :
  Forall is_bit key → join [] (str_of_int <$> key) = digit <$> key.
Proof.
  intros Hb. rewrite join_empty.
  induction Hb as [|b key Hbit _ IH]; [done|].
  rewrite !fmap_cons. cbn [concat]. rewrite IH.
  destruct Hbit as [->| ->]; reflexivity.
Qed.

(** What [self.mapping.items()] yields for a constructed rule. *)
Lemma mapping_items_spec (number : Z) (n : nat) :
  0 ≤ number < 2 ^ (2 ^ Z.of_nat n) →
  ∃ items values m,
    mapping_items number n = Ok items ∧
    binary number (2 ^ n) = Ok values ∧ Forall is_bit values ∧
    Rule._get_mapping number n = Ok m ∧
    length items = (2 ^ n)%nat ∧
    (∀ i : nat, (i < 2 ^ n)%nat →
       ∃ key value, binary (Z.of_nat i) n = Ok key ∧ values !! i = Some value ∧
                    items !! i = Some (key, value)) ∧
    list_to_map items = m.
Proof.
  intros Hr.
  assert (Z.of_nat (2 ^ n) = 2 ^ Z.of_nat n) as Hpow by apply Nat2Z.inj_pow.
  destruct (get_mapping_spec number n Hr)
    as (values & m & Hvs & Hlv & Hbv & _ & Hm & Hin & Hdom).
  set (ivs := zip (range 0 (2 ^ Z.of_nat n)) values).
  assert (∀ i : nat, (i < 2 ^ n)%nat →
            ∃ v, values !! i = Some v ∧ ivs !! i = Some (Z.of_nat i, v)) as Hivs.
  { intros i Hi. destruct (lookup_lt_is_Some_2 values i) as [v Hv]; [lia|].
    exists v. split; [done|]. unfold ivs, range.
    rewrite lookup_zip_with, lookup_seqZ_lt by lia. simpl. by rewrite Hv. }
  assert (length ivs = (2 ^ n)%nat) as Hlivs.
  { unfold ivs, range. rewrite length_zip_with, length_seqZ. lia. }
  destruct (items_loop n ivs []) as (items & Hitems & HF).
  { intros i v (k & x & y & [= -> ->] & [-> Hk]%lookup_seqZ & Hy)%elem_of_lookup_zip_with.
    lia. }
  { unfold ivs. rewrite fst_zip; [apply NoDup_seqZ|].
    unfold range. rewrite length_seqZ. lia. }
  { intros. apply not_elem_of_nil. }
  pose proof (Forall2_length _ _ _ HF) as Hlen.
  assert (∀ i : nat, (i < 2 ^ n)%nat →
       ∃ key value, binary (Z.of_nat i) n = Ok key ∧ values !! i = Some value ∧
                    items !! i = Some (key, value)) as Hlook.
  { intros i Hi. destruct (Hivs i Hi) as (v & Hv & Hiv).
    destruct (Forall2_lookup_l _ _ _ _ _ HF Hiv) as ([key v'] & Hkv & Hk & Hv').
    simpl in Hk, Hv'. subst v'. by exists key, v. }
  assert (∀ (j : nat) key v, items !! j = Some (key, v) →
            binary (Z.of_nat j) n = Ok key ∧ values !! j = Some v ∧ (j < 2 ^ n)%nat)
    as Hinv.
  { intros j key v Hj. pose proof (lookup_lt_Some _ _ _ Hj) as Hjlt.
    destruct (Hlook j) as (key' & v' & Hk & Hv & Hj'); [lia|].
    rewrite Hj in Hj'. injection Hj' as <- <-. split; [done|]. split; [done|lia]. }
  assert (NoDup items.*1) as Hnd.
  { apply NoDup_alt. intros i j key Hi Hj.
    apply list_lookup_fmap_Some in Hi as ([k1 v1] & -> & Hi).
    apply list_lookup_fmap_Some in Hj as ([k2 v2] & Heq & Hj). simpl in Heq. subst k2.
    destruct (Hinv _ _ _ Hi) as (Hk1 & _ & Hi1).
    destruct (Hinv _ _ _ Hj) as (Hk2 & _ & Hj1).
    destruct (binary_some (Z.of_nat i) n) as (l1 & Hl1 & _ & Hv1 & _); [lia|].
    destruct (binary_some (Z.of_nat j) n) as (l2 & Hl2 & _ & Hv2 & _); [lia|].
    rewrite Hk1 in Hl1. rewrite Hk2 in Hl2.
    injection Hl1 as <-. injection Hl2 as <-. lia. }
  exists items, values, m. repeat split; try done.
  { unfold mapping_items. rewrite Hvs. exact Hitems. }
  { congruence. }
  apply map_eq. intros key.
  destruct (m !! key) as [v|] eqn:Hmk.
  - apply elem_of_list_to_map_1; [done|].
    destruct (Hdom _ _ Hmk) as (i & Hi & Hk & Hv).
    destruct (Hlook (Z.to_nat i)) as (key' & v' & Hk' & Hv' & Hit).
    { apply Nat2Z.inj_lt. lia. }
    rewrite Z2Nat.id in Hk' by lia. rewrite Hk in Hk'. injection Hk' as <-.
    rewrite Hv in Hv'. injection Hv' as <-.
    by eapply list_elem_of_lookup_2.
  - apply not_elem_of_list_to_map_1.
    intros ([key' v] & -> & [j Hj]%list_elem_of_lookup_1)%list_elem_of_fmap.
    destruct (Hinv _ _ _ Hj) as (Hk & Hv & Hjlt). simpl in Hmk.
    rewrite (Hin (Z.of_nat j) key') in Hmk; [|lia|done].
    rewrite Nat2Z.id in Hmk. congruence.
Qed.


